(** * Wallet controllers: preferences store and ERC-721 standard probe

  A shallow embedding of

  - [PreferencesController] (identities, lost identities, selected
    address, token watch-list, feature flags), and
  - the two [ERC721Standard] probes (dispatch by contract address through
    [web3], and dispatch through a bound contract-methods handle),

  followed by the properties established about them. *)

From Stdlib Require Import Ascii String NArith Sorted.
From stdpp Require Import base option list strings pretty sorting.

Open Scope string_scope.
Open Scope list_scope.

(** ** Plain JavaScript objects used as string-keyed maps

  An object is the sequence of its own enumerable properties in insertion
  order; this is the order [Object.keys] and [for ... in] follow for keys
  that are not array indices, which is the case of every address key (they
  start with [0x]). *)

Abbreviation jsobject V := (list (string * V)).

Module JsObject.
Section Ops.
Context {V : Type}.

(** [Object.keys(o)] *)
Definition keys (o : jsobject V) : list string := o.*1.

(** [o[k]], [None] standing for [undefined] *)
Fixpoint get (o : jsobject V) (k : string) : option V :=
  match o with
  | [] => None
  | (k', v) :: o' => if decide (k' = k) then Some v else get o' k
  end.

(** [o[k] = v]: an existing property keeps its place, a new one goes last *)
Fixpoint set (o : jsobject V) (k : string) (v : V) : jsobject V :=
  match o with
  | [] => [(k, v)]
  | (k', v') :: o' =>
      if decide (k' = k) then (k, v) :: o' else (k', v') :: set o' k v
  end.

(** [delete o[k]] *)
Definition del (o : jsobject V) (k : string) : jsobject V :=
  filter (λ kv, kv.1 ≠ k) o.

(** Property names of an object are pairwise distinct. *)
Definition wf (o : jsobject V) : Prop := NoDup (keys o).

(** *** Property order for arbitrary names

    The own keys of an object come with the array indices first, in
    ascending numeric order, then the other names in insertion order.  A
    name is an array index when it is the canonical decimal spelling of an
    integer below [2^32 - 1]. *)

(** The number a string of decimal digits spells, continuing from [acc]. *)
Fixpoint digitsValue (acc : N) (s : string) : option N :=
  match s with
  | EmptyString => Some acc
  | String c s' =>
      let d := N_of_ascii c in
      if decide (48 ≤ d ≤ 57)%N then digitsValue (acc * 10 + (d - 48)) s'
      else None
  end.

Definition arrayIndex (k : string) : option N :=
  match digitsValue 0 k with
  | Some n => if decide (pretty n = k ∧ (n < 2 ^ 32 - 1)%N) then Some n else None
  | None => None
  end.

(** [k1] is listed before [k2] whenever both are keys of one object. *)
Definition precedes (k1 k2 : string) : Prop :=
  match arrayIndex k1, arrayIndex k2 with
  | Some m, Some n => (m < n)%N
  | Some _, None => True
  | None, Some _ => False
  | None, None => True
  end.

(** The properties stand in the order in which an object lists them. *)
Definition ordered (o : jsobject V) : Prop := StronglySorted precedes (keys o).

(** A new property whose name is the array index [n] goes after the smaller
    indices and before everything else. *)
Fixpoint insertIndex (n : N) (k : string) (v : V) (o : jsobject V) : jsobject V :=
  match o with
  | [] => [(k, v)]
  | (k', v') :: o' =>
      match arrayIndex k' with
      | Some m =>
          if decide (m < n)%N then (k', v') :: insertIndex n k v o'
          else (k, v) :: o
      | None => (k, v) :: o
      end
  end.

(** [o[k] = v] for any name: an existing property keeps its place, a new
    array index is sorted in, any other new name goes last. *)
Definition put (o : jsobject V) (k : string) (v : V) : jsobject V :=
  match get o k with
  | Some _ => set o k v
  | None =>
      match arrayIndex k with
      | Some n => insertIndex n k v o
      | None => o ++ [(k, v)]
      end
  end.

(** [{ ...target, ...src }] built on [target]: the properties of [src] are
    copied in their order. *)
Definition spreadInto (target src : jsobject V) : jsobject V :=
  foldl (λ acc kv, put acc kv.1 kv.2) target src.
End Ops.
End JsObject.

(** ** The preferences controller *)

Module Preferences.

(** [ContactEntry]: the interface declares both fields, but
  [setAccountLabel] builds records from [{}], so a field may be missing. *)
Record ContactEntry := mkContactEntry {
  address : option string;
  name : option string
}.

Global Instance ContactEntry_eq_dec : EqDecision ContactEntry.
Proof. solve_decision. Defined.

(** The literal [{}] *)
Definition emptyEntry : ContactEntry := mkContactEntry None None.

(** The template string [`Account ${n}`] *)
Definition accountName (n : nat) : string := "Account " +:+ pretty n.

(** [{ address, name: `Account ${n}`, ...old }]: the fields of [old] win. *)
Definition spread (fresh old : ContactEntry) : ContactEntry :=
  {| address := match address old with Some a => Some a | None => address fresh end;
     name := match name old with Some n => Some n | None => name fresh end |}.

Section Controller.
(** JavaScript numbers ([decimals]); never inspected by the controller. *)
Context {number : Type}.

(** [toChecksumAddress] of ethereumjs-util, an external pure function; the
    controller is only specified on inputs it accepts. *)
Variable toChecksumAddress : string → string.

(** [Token]; its [address] field is [tokenAddress] here. *)
Record Token := mkToken {
  tokenAddress : string;
  symbol : string;
  decimals : number
}.

Record PreferencesState := mkState {
  featureFlags : jsobject bool;
  identities : jsobject ContactEntry;
  lostIdentities : jsobject ContactEntry;
  selectedAddress : option string;   (* [None] is [undefined] *)
  tokens : list Token
}.

Definition defaultState : PreferencesState :=
  {| featureFlags := []; identities := []; lostIdentities := [];
     selectedAddress := Some EmptyString; tokens := [] |}.

(** [this.update({ field })] of the base controller, one field at a time *)
Definition update_identities (st : PreferencesState) ids : PreferencesState :=
  {| featureFlags := featureFlags st; identities := ids;
     lostIdentities := lostIdentities st;
     selectedAddress := selectedAddress st; tokens := tokens st |}.

Definition update_lostIdentities (st : PreferencesState) lost : PreferencesState :=
  {| featureFlags := featureFlags st; identities := identities st;
     lostIdentities := lost;
     selectedAddress := selectedAddress st; tokens := tokens st |}.

Definition update_selectedAddress (st : PreferencesState) sel : PreferencesState :=
  {| featureFlags := featureFlags st; identities := identities st;
     lostIdentities := lostIdentities st;
     selectedAddress := sel; tokens := tokens st |}.

Definition update_tokens (st : PreferencesState) toks : PreferencesState :=
  {| featureFlags := featureFlags st; identities := identities st;
     lostIdentities := lostIdentities st;
     selectedAddress := selectedAddress st; tokens := toks |}.

Definition update_featureFlags (st : PreferencesState) ff : PreferencesState :=
  {| featureFlags := ff; identities := identities st;
     lostIdentities := lostIdentities st;
     selectedAddress := selectedAddress st; tokens := tokens st |}.

(** *** addIdentities *)

(** The body of the [forEach] callback, acting on the live object. *)
Definition addIdentity (ids : jsobject ContactEntry) (a : string)
  : jsobject ContactEntry :=
  let a := toChecksumAddress a in
  match JsObject.get ids a with
  | Some _ => ids
  | None =>
      let identityCount := length (JsObject.keys ids) in
      JsObject.set ids a
        {| address := Some a; name := Some (accountName (identityCount + 1)) |}
  end.

Definition addIdentities (st : PreferencesState) (addresses : list string)
  : PreferencesState :=
  update_identities st (foldl addIdentity (identities st) addresses).

(** *** addToken *)

Definition addToken (st : PreferencesState) (a sym : string) (dec : number)
  : PreferencesState * list Token :=
  let a := toChecksumAddress a in
  let newEntry := mkToken a sym dec in
  let toks : list Token :=
    match list_find (λ t, tokenAddress t = a) (tokens st) with
    | Some (previousIndex, _) => <[previousIndex := newEntry]> (tokens st)
    | None => tokens st ++ [newEntry]
    end in
  (update_tokens st toks, toks).

(** *** removeIdentity *)

Definition removeIdentity (st : PreferencesState) (a : string)
  : PreferencesState :=
  let a := toChecksumAddress a in
  match JsObject.get (identities st) a with
  | None => st
  | Some _ =>
      let ids := JsObject.del (identities st) a in
      let st := update_identities st ids in
      if decide (Some a = selectedAddress st)
      then update_selectedAddress st (head (JsObject.keys ids))
      else st
  end.

(** *** removeToken *)

Definition removeToken (st : PreferencesState) (a : string) : PreferencesState :=
  let a := toChecksumAddress a in
  update_tokens st (filter (λ t, tokenAddress t ≠ a) (tokens st)).

(** *** setAccountLabel *)

Definition setAccountLabel (st : PreferencesState) (a label : string)
  : PreferencesState :=
  let a := toChecksumAddress a in
  let ids := identities st in
  (* identities[address] = identities[address] || {} *)
  let ids := JsObject.set ids a (default emptyEntry (JsObject.get ids a)) in
  (* identities[address].name = label *)
  let ids :=
    match JsObject.get ids a with
    | Some e => JsObject.set ids a {| address := address e; name := Some label |}
    | None => ids
    end in
  update_identities st ids.

(** *** setFeatureFlag *)

(** [{ ...oldFeatureFlags, ...{ [feature]: activated } }]: a new object that
    receives the old flags and then the one flag. *)
Definition setFeatureFlag (st : PreferencesState) (feature : string)
    (activated : bool) : PreferencesState :=
  let oldFeatureFlags := featureFlags st in
  update_featureFlags st
    (JsObject.spreadInto (JsObject.spreadInto [] oldFeatureFlags)
       [(feature, activated)]).

(** *** syncIdentities *)

(** One turn of the [for (const identity in identities)] loop; the pair is
    the live [identities] object and [newlyLost]. *)
Definition syncLoop (addresses : list string)
    (acc : jsobject ContactEntry * jsobject ContactEntry) (identity : string)
  : jsobject ContactEntry * jsobject ContactEntry :=
  let '(ids, newlyLost) := acc in
  if decide (identity ∈ addresses) then acc
  else match JsObject.get ids identity with
       | Some e => (JsObject.del ids identity, JsObject.set newlyLost identity e)
       | None => acc
       end.

Definition syncIdentities (st : PreferencesState) (addresses : list string)
  : PreferencesState * option string :=
  let addresses := toChecksumAddress <$> addresses in
  let '(ids, newlyLost) :=
    foldl (syncLoop addresses) (identities st, [])
          (JsObject.keys (identities st)) in
  let lost :=
    if decide (0 < length (JsObject.keys newlyLost))
    then foldl (λ lost kv, JsObject.set lost kv.1 kv.2) (lostIdentities st) newlyLost
    else lostIdentities st in
  let st := update_lostIdentities (update_identities st ids) lost in
  let st := addIdentities st addresses in
  let st :=
    match selectedAddress st with
    | Some s =>
        if decide (s ∈ addresses) then st
        else update_selectedAddress st (head addresses)
    | None => update_selectedAddress st (head addresses)
    end in
  (st, selectedAddress st).

(** *** updateIdentities *)

(** [Array.prototype.reduce] with the element index, from index [i] on *)
Fixpoint reduceFrom {A B : Type} (f : B → A → nat → B) (i : nat)
    (l : list A) (acc : B) : B :=
  match l with
  | [] => acc
  | x :: l' => reduceFrom f (S i) l' (f acc x i)
  end.

Definition updateIdentities (st : PreferencesState) (addresses : list string)
  : PreferencesState :=
  let addresses := toChecksumAddress <$> addresses in
  let oldIdentities := identities st in
  let ids :=
    reduceFrom
      (λ ids a index,
         JsObject.set ids a
           (spread {| address := Some a; name := Some (accountName (index + 1)) |}
                   (default emptyEntry (JsObject.get oldIdentities a))))
      0 addresses [] in
  update_identities st ids.

(** *** Notions used to state the properties *)

(** The identity invariant of the data model: the record stored under a key
    has an [address] field whose checksummed form is the key. *)
Definition keyedByChecksum (ids : jsobject ContactEntry) : Prop :=
  Forall (λ kv, toChecksumAddress <$> address kv.2 = Some kv.1) ids.

(** The selected address names a stored identity, or is [undefined] with no
    identity stored. *)
Definition selectionSettled (st : PreferencesState) : Prop :=
  match selectedAddress st with
  | Some s => s ∈ JsObject.keys (identities st)
  | None => identities st = []
  end.

(** The identity [addIdentities] creates for address [a] when [count]
    identities are stored. *)
Definition defaultIdentity (count : nat) (a : string) : ContactEntry :=
  {| address := Some a; name := Some (accountName (count + 1)) |}.

(** The addresses of [l], in order, that are not in [seen] and did not occur
    earlier in [l]. *)
Fixpoint newAddresses (seen l : list string) : list string :=
  match l with
  | [] => []
  | a :: l' =>
      if decide (a ∈ seen) then newAddresses seen l'
      else a :: newAddresses (seen ++ [a]) l'
  end.

(** Replace the first token of address [a] where it stands, or append:
    what [find], [indexOf] and the indexed assignment or [push] amount to. *)
Fixpoint replaceOrAppend (a : string) (new : Token)
    (toks : list Token) : list Token :=
  match toks with
  | [] => [new]
  | t :: toks' =>
      if decide (tokenAddress t = a) then new :: toks'
      else t :: replaceOrAppend a new toks'
  end.

(** States reached from the default state by the public methods. *)
Inductive reachable : PreferencesState → Prop :=
| reach_default : reachable defaultState
| reach_addIdentities st l : reachable st → reachable (addIdentities st l)
| reach_addToken st a sym dec : reachable st → reachable (addToken st a sym dec).1
| reach_removeIdentity st a : reachable st → reachable (removeIdentity st a)
| reach_removeToken st a : reachable st → reachable (removeToken st a)
| reach_setAccountLabel st a label :
    reachable st → reachable (setAccountLabel st a label)
| reach_setFeatureFlag st f b : reachable st → reachable (setFeatureFlag st f b)
| reach_syncIdentities st l : reachable st → reachable (syncIdentities st l).1
| reach_updateIdentities st l : reachable st → reachable (updateIdentities st l).

End Controller.

Global Arguments Token : clear implicits.
Global Arguments PreferencesState : clear implicits.

(** A stand-in for [toChecksumAddress] on which the controller can be run:
    it upper-cases the hexadecimal letters and leaves the rest (the [0x]
    prefix, the digits) alone.  The real function picks the case of each
    letter from a Keccak hash; like it, this one is idempotent and sends two
    spellings of an address that differ only in case to the same string. *)
Definition upperHexDigit (c : ascii) : ascii :=
  let n := nat_of_ascii c in
  if bool_decide (97 ≤ n ≤ 102)%nat then ascii_of_nat (n - 32) else c.

Fixpoint upperHex (s : string) : string :=
  match s with
  | EmptyString => EmptyString
  | String c s' => String (upperHexDigit c) (upperHex s')
  end.

End Preferences.

(** ** The ERC-721 standard probes *)

(** *** Remote contract calls

    A probe talks to a contract through error-first callbacks.  The node
    that answers is a parameter: its reply to a call may depend on the calls
    issued before it.  A computation threads the log of issued calls and
    ends resolved with a value or rejected with a reason. *)

Module Remote.
Section Remote.
Context {Contract Error : Type}.

Inductive Method :=
| SupportsInterface (interfaceId : string)
| TokenURI (tokenId : string)
| Name
| Symbol.

Record Call := mkCall { callee : Contract; method : Method }.

Record Node := mkNode {
  (** the [(error, result)] handed to the callback of [supportsInterface] *)
  replyBool : list Call → Call → Error + bool;
  (** the same for the string-valued methods *)
  replyString : list Call → Call → Error + string;
  (** of two calls in flight that both fail, whether the one issued first
      is the first to reject, given the log before them *)
  firstRejectsFirst : list Call → bool
}.

(** What a rejected promise carries: the error of the remote call, passed
    on as it is, or an [Error] the probe constructs with a message. *)
Inductive Reason :=
| Propagated (e : Error)
| Thrown (message : string).

Inductive Outcome (A : Type) :=
| Resolved (a : A)
| Rejected (r : Reason).
Global Arguments Resolved {A} a.
Global Arguments Rejected {A} r.

Definition Async (A : Type) : Type := list Call → Outcome A * list Call.

Definition ret {A} (a : A) : Async A := λ log, (Resolved a, log).

Definition throw {A} (message : string) : Async A :=
  λ log, (Rejected (Thrown message), log).

(** [await m], then [k] *)
Definition bind {A B} (m : Async A) (k : A → Async B) : Async B :=
  λ log,
    match m log with
    | (Resolved a, log') => k a log'
    | (Rejected r, log') => (Rejected r, log')
    end.

Variable node : Node.

(** The callback [(error, result) => { if (error) { reject(error); return; }
    resolve(result); }] *)
Definition settle {A} (reply : Error + A) : Outcome A :=
  match reply with
  | inl e => Rejected (Propagated e)
  | inr a => Resolved a
  end.

(** [new Promise((resolve, reject) => method(args, callback))]: the call is
    issued and the promise settles with the node's reply. *)
Definition callBool (c : Call) : Async bool :=
  λ log, (settle (replyBool node log c), log ++ [c]).

Definition callString (c : Call) : Async string :=
  λ log, (settle (replyString node log c), log ++ [c]).

(** [Promise.all([m1, m2])] for two computations that each issue their call
    when started: both calls go out, in order, before either settles. *)
Definition all2 {A B} (m1 : Async A) (m2 : Async B) : Async (A * B) :=
  λ log,
    let '(o1, log1) := m1 log in
    let '(o2, log2) := m2 log1 in
    (match o1, o2 with
     | Resolved a, Resolved b => Resolved (a, b)
     | Rejected r, Resolved _ => Rejected r
     | Resolved _, Rejected r => Rejected r
     | Rejected r1, Rejected r2 =>
         Rejected (if firstRejectsFirst node log then r1 else r2)
     end, log2).

End Remote.
Global Arguments Method : clear implicits.
Global Arguments Call : clear implicits.
Global Arguments Node : clear implicits.
Global Arguments Reason : clear implicits.
Global Arguments Outcome : clear implicits.
Global Arguments Resolved {Error A} a.
Global Arguments Rejected {Error A} r.
Global Arguments Async : clear implicits.
End Remote.

Declare Scope async_scope.
Delimit Scope async_scope with async.
Notation "'await' x <- m ; k" := (Remote.bind m (λ x, k))
  (at level 10, x name, m at level 100, k at level 200,
   format "'[v' 'await'  x  <-  m ; '/' k ']'") : async_scope.
Notation "'await' ' p <- m ; k" :=
  (Remote.bind m (λ x, match x with p => k end))
  (at level 10, p pattern, m at level 100, k at level 200,
   format "'[v' 'await'  ' p  <-  m ; '/' k ']'") : async_scope.

(** [if (tokenId)]: a missing or empty string is falsy. *)
Definition truthy (s : option string) : bool :=
  match s with
  | Some s => if decide (s = EmptyString) then false else true
  | None => false
  end.

(** *** The probe that dispatches by contract address *)

Module ERC721Standard.
Section Probe.
Context {Contract Error : Type}.

(** [this.web3.eth.contract(abiERC721).at(address)] *)
Variable web3At : string → Contract.
Variable node : Remote.Node Contract Error.

(** The constants this file imports from the [constants] module. *)
Variable ERC721_INTERFACE_ID : string.
Variable ERC721_METADATA_INTERFACE_ID : string.
Variable ERC721_ENUMERABLE_INTERFACE_ID : string.
Variable ERC721 : string.

Local Open Scope async_scope.

Definition contractSupportsInterface (address interfaceId : string)
  : Remote.Async Contract Error bool :=
  let contract := web3At address in
  Remote.callBool node (Remote.mkCall contract (Remote.SupportsInterface interfaceId)).

Definition contractSupportsMetadataInterface (address : string)
  : Remote.Async Contract Error bool :=
  contractSupportsInterface address ERC721_METADATA_INTERFACE_ID.

Definition contractSupportsEnumerableInterface (address : string)
  : Remote.Async Contract Error bool :=
  contractSupportsInterface address ERC721_ENUMERABLE_INTERFACE_ID.

Definition contractSupportsBase721Interface (address : string)
  : Remote.Async Contract Error bool :=
  contractSupportsInterface address ERC721_INTERFACE_ID.

Definition getTokenURI (address tokenId : string)
  : Remote.Async Contract Error string :=
  let contract := web3At address in
  await supportsMetadata <- contractSupportsMetadataInterface address;
  if negb supportsMetadata
  then Remote.throw "Contract does not support ERC721 metadata interface."
  else Remote.callString node (Remote.mkCall contract (Remote.TokenURI tokenId)).

Definition getAssetName (address : string) : Remote.Async Contract Error string :=
  let contract := web3At address in
  Remote.callString node (Remote.mkCall contract Remote.Name).

Definition getAssetSymbol (address : string) : Remote.Async Contract Error string :=
  let contract := web3At address in
  Remote.callString node (Remote.mkCall contract Remote.Symbol).

(** The aggregate [getDetails] resolves to; [None] is [undefined]. *)
Record Details := mkDetails {
  standard : string;
  tokenURI : option string;
  symbol : option string;
  name : option string
}.

Definition getDetails (address : string) (tokenId : option string)
  : Remote.Async Contract Error Details :=
  await '(isERC721, supportsMetadata) <-
    Remote.all2 node (contractSupportsBase721Interface address)
                     (contractSupportsMetadataInterface address);
  await '(tokenURI, symbol, name) <-
    (if supportsMetadata : bool
     then
       await '(symbol, name) <-
         Remote.all2 node (getAssetSymbol address) (getAssetName address);
       await tokenURI <-
         (match tokenId with
          | Some id =>
              if truthy tokenId
              then await uri <- getTokenURI address id; Remote.ret (Some uri)
              else Remote.ret None
          | None => Remote.ret None
          end);
       Remote.ret (tokenURI, Some symbol, Some name)
     else Remote.ret (None, None, None));
  if isERC721 : bool
  then Remote.ret (mkDetails ERC721 tokenURI symbol name)
  else Remote.throw "This isn't a valid ERC721 contract".

End Probe.
End ERC721Standard.

(** *** The probe that works on a bound contract-methods handle *)

Module ERC721StandardMethods.

Definition ERC721_METADATA_INTERFACE_ID : string := "0x5b5e139f".
Definition ERC721_ENUMERABLE_INTERFACE_ID : string := "0x780e9d63".

Section Probe.
Context {Contract Error : Type}.
Variable node : Remote.Node Contract Error.

Local Open Scope async_scope.

(** [contract.methods.supportsInterface(interfaceId, callback)] *)
Definition contractSupportsInterface (contract : Contract) (interfaceId : string)
  : Remote.Async Contract Error bool :=
  Remote.callBool node (Remote.mkCall contract (Remote.SupportsInterface interfaceId)).

Definition contractSupportsMetadataInterface (contract : Contract)
  : Remote.Async Contract Error bool :=
  contractSupportsInterface contract ERC721_METADATA_INTERFACE_ID.

Definition contractSupportsEnumerableInterface (contract : Contract)
  : Remote.Async Contract Error bool :=
  contractSupportsInterface contract ERC721_ENUMERABLE_INTERFACE_ID.

Definition getCollectibleTokenURI (contract : Contract) (tokenId : string)
  : Remote.Async Contract Error string :=
  await supportsMetadata <- contractSupportsMetadataInterface contract;
  if negb supportsMetadata
  then Remote.throw "Contract does not support ERC721 metadata interface."
  else Remote.callString node (Remote.mkCall contract (Remote.TokenURI tokenId)).

Definition getAssetName (contract : Contract) : Remote.Async Contract Error string :=
  Remote.callString node (Remote.mkCall contract Remote.Name).

Definition getAssetSymbol (contract : Contract) : Remote.Async Contract Error string :=
  Remote.callString node (Remote.mkCall contract Remote.Symbol).

End Probe.
End ERC721StandardMethods.

(** ** Sample inputs *)

Module Sample.

(** A node to run the probes against.  Contracts and errors are strings.
    The node answers [supportsInterface] with [base] for the identifier
    [baseId] and with [meta] for any other, answers [symbol] with
    [symbolReply] and every other string-valued method with its own name. *)

Definition node (baseId : string) (base meta : bool)
    (symbolReply : string + string) : Remote.Node string string :=
  {| Remote.replyBool := λ _ c,
       match Remote.method c with
       | Remote.SupportsInterface i =>
           inr (if decide (i = baseId) then base else meta)
       | _ => inl "not a boolean method"
       end;
     Remote.replyString := λ _ c,
       match Remote.method c with
       | Remote.Symbol => symbolReply
       | Remote.Name => inr "name"
       | Remote.TokenURI _ => inr "tokenURI"
       | Remote.SupportsInterface _ => inl "not a string method"
       end;
     Remote.firstRejectsFirst := λ _, true |}.

(** Two identities with custom names, the first one selected. *)
Definition twoIdentities : Preferences.PreferencesState nat :=
  {| Preferences.featureFlags := [];
     Preferences.identities :=
       [("0xA1", Preferences.mkContactEntry (Some "0xa1") (Some "main"));
        ("0xB2", Preferences.mkContactEntry (Some "0xB2") (Some "spare"))];
     Preferences.lostIdentities := [];
     Preferences.selectedAddress := Some "0xA1";
     Preferences.tokens := [] |}.

End Sample.

(** ** More sample inputs *)

Module MoreSamples.

(** One identity added, then a label set for an address without identity. *)
Definition labelled : Preferences.PreferencesState nat :=
  Preferences.setAccountLabel Preferences.upperHex
    (Preferences.addIdentities Preferences.upperHex Preferences.defaultState
       ["0xa1"])
    "0xb2" "savings".

(** Two tokens on the watch-list. *)
Definition watching : Preferences.PreferencesState nat :=
  (Preferences.addToken Preferences.upperHex
     (Preferences.addToken Preferences.upperHex Preferences.defaultState
        "0xabc" "TKN" 18).1
     "0xdef" "OTH" 6).1.

End MoreSamples.

(** * Properties *)

(** ** Objects as maps *)

Section JsObjectFacts.
Import JsObject.
Context {V : Type}.
Implicit Types (o : jsobject V) (k : string) (v : V).

Lemma get_None o k : get o k = None ↔ k ∉ keys o.
Proof.
  induction o as [|[k' v] o IH]; simpl.
  - split; [intros _; apply not_elem_of_nil | done].
  - rewrite not_elem_of_cons. case_decide; subst.
    + split; [done | intros [? _]; done].
    + rewrite IH. split; [intros; split; [congruence | done] | by intros [_ ?]].
Qed.

Lemma get_is_Some o k : is_Some (get o k) ↔ k ∈ keys o.
Proof.
  rewrite <- not_eq_None_Some, get_None.
  split; [apply dec_stable | auto].
Qed.

Lemma get_Some_elem o k v : get o k = Some v → (k, v) ∈ o.
Proof.
  induction o as [|[k' v'] o IH]; simpl; [done|].
  case_decide; subst.
  - intros [= ->]. apply list_elem_of_here.
  - intros H'. apply list_elem_of_further; auto.
Qed.

Lemma get_app o1 o2 k :
  get (o1 ++ o2) k = match get o1 k with Some v => Some v | None => get o2 k end.
Proof.
  induction o1 as [|[k' v'] o1 IH]; simpl; [done|]. by case_decide.
Qed.

Lemma get_set_eq o k v : get (set o k v) k = Some v.
Proof.
  induction o as [|[k' v'] o IH]; simpl.
  - by rewrite decide_True.
  - case_decide; simpl; [by rewrite decide_True | by rewrite decide_False].
Qed.

Lemma get_set_ne o k k' v : k ≠ k' → get (set o k v) k' = get o k'.
Proof.
  intros Hne. induction o as [|[k0 v0] o IH]; simpl.
  - by rewrite decide_False.
  - case_decide; simpl; subst.
    + by rewrite !decide_False.
    + by rewrite IH.
Qed.

Lemma set_fresh o k v : get o k = None → set o k v = o ++ [(k, v)].
Proof.
  induction o as [|[k' v'] o IH]; simpl; [done|].
  case_decide; [done|]. intros H'. by rewrite IH.
Qed.

Lemma keys_set_present o k v : is_Some (get o k) → keys (set o k v) = keys o.
Proof.
  unfold keys. induction o as [|[k' v'] o IH]; simpl.
  - by intros [? ?].
  - case_decide; subst; simpl; [done|]. intros H'. f_equal. by apply IH.
Qed.

Lemma keys_set o k v :
  keys (set o k v) = if decide (k ∈ keys o) then keys o else keys o ++ [k].
Proof.
  case_decide as Hk.
  - by apply keys_set_present, get_is_Some.
  - apply get_None in Hk. rewrite set_fresh by done.
    unfold keys. by rewrite fmap_app.
Qed.

Lemma elem_of_keys_set o k v k' : k' ∈ keys (set o k v) ↔ k' = k ∨ k' ∈ keys o.
Proof.
  rewrite keys_set. case_decide.
  - split; [by right | intros [-> | ?]; done].
  - rewrite elem_of_app, list_elem_of_singleton. tauto.
Qed.

Lemma wf_set o k v : wf o → wf (set o k v).
Proof.
  unfold wf. rewrite keys_set. case_decide; [done|].
  intros Hnd. apply NoDup_app. split_and!; [done| |apply NoDup_singleton].
  intros x Hx ->%list_elem_of_singleton. done.
Qed.

Lemma keys_del o k : keys (del o k) = filter (λ k', k' ≠ k) (keys o).
Proof.
  unfold keys, del. induction o as [|[k' v'] o IH]; simpl; [done|].
  rewrite !filter_cons. simpl. case_decide; simpl; by f_equal.
Qed.

Lemma elem_of_keys_del o k k' : k' ∈ keys (del o k) ↔ k' ≠ k ∧ k' ∈ keys o.
Proof. rewrite keys_del, list_elem_of_filter. done. Qed.

Lemma wf_del o k : wf o → wf (del o k).
Proof. unfold wf. rewrite keys_del. apply NoDup_filter. Qed.

Lemma get_filter_key (P : string → Prop) `{!∀ k, Decision (P k)} o k :
  get (filter (λ kv, P kv.1) o) k = if decide (P k) then get o k else None.
Proof.
  induction o as [|[k0 v0] o IH]; simpl; [by case_decide|].
  rewrite filter_cons. simpl.
  destruct (decide (P k0)) as [Hp|Hp]; simpl; rewrite IH;
    destruct (decide (k0 = k)) as [->|Hne];
    destruct (decide (P k)); done.
Qed.
Lemma get_del o k k' :
  get (del o k) k' = if decide (k' ≠ k) then get o k' else None.
Proof. exact (get_filter_key (λ k', k' ≠ k) o k'). Qed.

Lemma get_del_eq o k : get (del o k) k = None.
Proof. rewrite get_del. by rewrite decide_False by tauto. Qed.

Lemma get_del_ne o k k' : k ≠ k' → get (del o k) k' = get o k'.
Proof. intros Hne. rewrite get_del. by rewrite decide_True by congruence. Qed.

Lemma del_absent o k : k ∉ keys o → del o k = o.
Proof.
  unfold del, keys. induction o as [|[k0 v0] o IH]; simpl; [done|].
  rewrite not_elem_of_cons. intros [Hne Hk].
  rewrite filter_cons. simpl. rewrite decide_True by congruence.
  f_equal. by apply IH.
Qed.

Lemma del_app o1 o2 k : del (o1 ++ o2) k = del o1 k ++ del o2 k.
Proof. unfold del. apply filter_app. Qed.

Lemma del_here o k v : k ∉ keys o → del ((k, v) :: o) k = o.
Proof.
  intros Hk. unfold del. rewrite filter_cons. simpl.
  rewrite decide_False by tauto. by apply del_absent.
Qed.

Lemma keys_app o1 o2 : keys (o1 ++ o2) = keys o1 ++ keys o2.
Proof. unfold keys. apply fmap_app. Qed.

Lemma keys_filter (P : string → Prop) `{!∀ k, Decision (P k)} o :
  keys (filter (λ kv, P kv.1) o) = filter P (keys o).
Proof.
  unfold keys. induction o as [|[k0 v0] o IH]; simpl; [done|].
  rewrite !filter_cons. simpl. case_decide; simpl; by f_equal.
Qed.

Lemma Forall_set (P : string * V → Prop) o k v :
  Forall P o → P (k, v) → Forall P (set o k v).
Proof.
  intros Ho Hkv. induction Ho as [|[k0 v0] o H0 Ho IH]; simpl.
  - by apply Forall_singleton.
  - case_decide; apply Forall_cons; auto.
Qed.

Lemma Forall_del (P : string * V → Prop) o k : Forall P o → Forall P (del o k).
Proof.
  rewrite !Forall_forall. intros Ho kv [_ Hkv]%list_elem_of_filter. auto.
Qed.

(** Copying the properties of [src] into [dst], as a [for ... in] loop of
    assignments does. *)
Lemma get_assign_all dst src k :
  wf src →
  get (foldl (λ (acc : jsobject V) (kv : string * V), set acc kv.1 kv.2) dst src) k =
    match get src k return option V with
    | Some v => Some v
    | None => get dst k
    end.
Proof.
  unfold wf, keys. revert dst.
  induction src as [|[k0 v0] src IH]; intros dst Hnd; simpl; [done|].
  simpl in Hnd. apply NoDup_cons in Hnd as [Hk0 Hnd].
  rewrite IH by done. destruct (decide (k0 = k)) as [->|Hne].
  - apply get_None in Hk0. rewrite Hk0. apply get_set_eq.
  - by rewrite get_set_ne.
Qed.

End JsObjectFacts.

(** ** The preferences controller *)

Section PreferencesFacts.
Import Preferences.
Context {number : Type}.
Variable toChecksumAddress : string → string.

(** The checksummed form of an address is its own checksummed form. *)
Hypothesis checksum_idempotent :
  ∀ a, toChecksumAddress (toChecksumAddress a) = toChecksumAddress a.

Local Abbreviation State := (PreferencesState number).
Local Abbreviation cs := toChecksumAddress.
Implicit Types (st : State) (ids lost : jsobject ContactEntry)
  (l seen : list string) (a k : string).

(** *** Which addresses [addIdentities] inserts *)

Lemma elem_of_newAddresses seen l a :
  a ∈ newAddresses seen l ↔ a ∈ l ∧ a ∉ seen.
Proof.
  revert seen. induction l as [|b l IH]; intros seen; simpl.
  - rewrite !elem_of_nil. tauto.
  - destruct (decide (b ∈ seen)) as [Hb|Hb].
    + rewrite IH, elem_of_cons. split; [tauto|].
      intros [[->|?] ?]; [done | tauto].
    + rewrite !elem_of_cons, IH, elem_of_app, list_elem_of_singleton.
      destruct (decide (a = b)) as [->|Hab]; tauto.
Qed.

Lemma NoDup_newAddresses seen l : NoDup (newAddresses seen l).
Proof.
  revert seen. induction l as [|b l IH]; intros seen; simpl.
  - apply NoDup_nil_2.
  - destruct (decide (b ∈ seen)); [apply IH|].
    apply NoDup_cons_2; [|apply IH].
    rewrite elem_of_newAddresses, elem_of_app, list_elem_of_singleton. tauto.
Qed.

Lemma newAddresses_fresh seen l :
  NoDup l → (∀ a, a ∈ l → a ∉ seen) → newAddresses seen l = l.
Proof.
  revert seen. induction l as [|b l IH]; intros seen Hnd Hfresh; simpl; [done|].
  apply NoDup_cons in Hnd as [Hb Hnd].
  rewrite decide_False by (apply Hfresh; left).
  f_equal. apply IH; [done|]. intros a Ha.
  rewrite elem_of_app, list_elem_of_singleton. intros [?| ->]; [|done].
  by apply (Hfresh a); [right|].
Qed.

Lemma addIdentity_unfold ids a :
  addIdentity cs ids a =
    if decide (cs a ∈ JsObject.keys ids) then ids
    else ids ++ [(cs a, defaultIdentity (length ids) (cs a))].
Proof.
  unfold addIdentity. case_decide as Hk.
  - apply get_is_Some in Hk as [e ->]. done.
  - apply get_None in Hk. rewrite Hk, set_fresh by done.
    unfold JsObject.keys. by rewrite length_fmap.
Qed.

Lemma addIdentities_fold ids l :
  foldl (addIdentity cs) ids l =
    ids ++ imap (λ i a, (a, defaultIdentity (length ids + i) a))
                (newAddresses (JsObject.keys ids) (cs <$> l)).
Proof.
  revert ids. induction l as [|a l IH]; intros ids; simpl.
  - by rewrite app_nil_r.
  - rewrite IH, addIdentity_unfold.
    destruct (decide (cs a ∈ JsObject.keys ids)) as [Hk|Hk]; [done|].
    simpl. rewrite <- app_assoc. simpl. rewrite Nat.add_0_r.
    unfold JsObject.keys at 1. rewrite fmap_app. simpl.
    do 2 f_equal. apply imap_ext. intros i b _. simpl.
    rewrite length_app. simpl. do 2 f_equal. lia.
Qed.

(** *** The [for ... in] loop of [syncIdentities] *)

Lemma syncLoop_fold (L : list string) rest kept newlyLost :
  JsObject.wf (kept ++ rest) →
  (∀ k, k ∈ JsObject.keys rest → k ∉ JsObject.keys newlyLost) →
  foldl (syncLoop L) (kept ++ rest, newlyLost) (JsObject.keys rest) =
    (kept ++ filter (λ kv, kv.1 ∈ L) rest,
     newlyLost ++ filter (λ kv, kv.1 ∉ L) rest).
Proof.
  revert kept newlyLost.
  induction rest as [|[k e] rest IH]; intros kept newlyLost Hwf Hfresh; simpl.
  - by rewrite !app_nil_r.
  - assert (Hwf' : JsObject.wf ((kept ++ [(k, e)]) ++ rest))
      by (by rewrite <- app_assoc).
    unfold JsObject.wf in Hwf. rewrite keys_app in Hwf.
    apply NoDup_app in Hwf as (_ & Hsep & Hnd). simpl in Hnd.
    apply NoDup_cons in Hnd as [Hk _].
    assert (Hkept : k ∉ JsObject.keys kept).
    { intros Hin. apply (Hsep k Hin). simpl. left. }
    rewrite !filter_cons. simpl.
    destruct (decide (k ∈ L)) as [HL|HL].
    + rewrite decide_False by tauto.
      replace (kept ++ (k, e) :: rest) with ((kept ++ [(k, e)]) ++ rest)
        by (by rewrite <- app_assoc).
      rewrite IH; [by rewrite <- app_assoc | done |].
      intros k' Hk'. apply Hfresh. simpl. by right.
    + rewrite decide_True by done.
      rewrite get_app. apply get_None in Hkept. rewrite Hkept. simpl.
      rewrite decide_True by done.
      rewrite del_app, del_absent by (by apply get_None).
      rewrite del_here by done.
      rewrite set_fresh by (apply get_None, Hfresh; simpl; left).
      rewrite IH.
      * by rewrite <- app_assoc.
      * unfold JsObject.wf. rewrite keys_app. apply NoDup_app.
        unfold JsObject.wf in Hwf'. rewrite !keys_app in Hwf'.
        apply NoDup_app in Hwf' as (Hnd1 & Hsep1 & Hnd2).
        apply NoDup_app in Hnd1 as (Hnd1 & _ & _).
        split_and!; [done | | done].
        intros x Hx. apply Hsep1. rewrite elem_of_app. by left.
      * intros k' Hk'. rewrite keys_app, elem_of_app. simpl.
        rewrite list_elem_of_singleton. intros [Hin| ->]; [|done].
        revert Hin. apply Hfresh. simpl. by right.
Qed.

Lemma syncIdentities_unfold st l :
  JsObject.wf (identities st) →
  let L := cs <$> l in
  let st' := (syncIdentities cs st l).1 in
  identities st' =
    foldl (addIdentity cs) (filter (λ kv, kv.1 ∈ L) (identities st)) L
  ∧ lostIdentities st' =
      foldl (λ (acc : jsobject ContactEntry) kv, JsObject.set acc kv.1 kv.2)
            (lostIdentities st) (filter (λ kv, kv.1 ∉ L) (identities st))
  ∧ selectedAddress st' =
      match selectedAddress st with
      | Some s => if decide (s ∈ L) then Some s else head L
      | None => head L
      end
  ∧ (syncIdentities cs st l).2 = selectedAddress st'
  ∧ featureFlags st' = featureFlags st
  ∧ tokens st' = tokens st.
Proof.
  intros Hwf L. unfold syncIdentities. fold L.
  pose proof (syncLoop_fold L (identities st) [] []) as Hloop.
  simpl in Hloop. rewrite Hloop; [|done|intros ? _; apply not_elem_of_nil].
  assert (Hguard : ∀ (lost newlyLost : jsobject ContactEntry),
            (if decide (0 < length (JsObject.keys newlyLost))
             then foldl (λ (acc : jsobject ContactEntry) kv,
                           JsObject.set acc kv.1 kv.2) lost newlyLost
             else lost)
            = foldl (λ (acc : jsobject ContactEntry) kv,
                       JsObject.set acc kv.1 kv.2) lost newlyLost).
  { intros lost [|kv newlyLost]; [done|].
    case_decide as Hlen; [done|]. simpl in Hlen. lia. }
  rewrite Hguard.
  simpl. destruct (selectedAddress st) as [s|] eqn:Hsel; simpl.
  - destruct (decide (s ∈ L)); simpl; rewrite ?Hsel; done.
  - done.
Qed.

(** *** The key invariant of [identities] *)

Lemma keyed_lookup ids k e :
  keyedByChecksum cs ids → JsObject.get ids k = Some e →
  ∃ a, address e = Some a ∧ cs a = k.
Proof.
  unfold keyedByChecksum. rewrite Forall_forall.
  intros Hinv Hget%get_Some_elem. specialize (Hinv _ Hget). simpl in Hinv.
  destruct (address e) as [a|]; simplify_eq/=. by exists a.
Qed.

Lemma keyed_addIdentities_fold ids l :
  keyedByChecksum cs ids → keyedByChecksum cs (foldl (addIdentity cs) ids l).
Proof.
  revert ids. induction l as [|a l IH]; intros ids Hinv; simpl; [done|].
  apply IH. rewrite addIdentity_unfold. case_decide; [done|].
  apply Forall_app. split; [done|]. apply Forall_singleton. simpl.
  by rewrite checksum_idempotent.
Qed.

Lemma keyed_syncLoop_fold (L ks : list string) acc :
  keyedByChecksum cs acc.1 →
  keyedByChecksum cs (foldl (syncLoop L) acc ks).1.
Proof.
  revert acc. induction ks as [|k ks IH]; intros [ids nl] Hinv; simpl; [done|].
  apply IH. case_decide; [done|].
  destruct (JsObject.get ids k); [|done]. simpl. by apply Forall_del.
Qed.

Lemma keyed_reduceFrom (old : jsobject ContactEntry) L i acc :
  keyedByChecksum cs old → keyedByChecksum cs acc →
  (∀ k, k ∈ L → cs k = k) →
  keyedByChecksum cs
    (reduceFrom
       (λ ids a index,
          JsObject.set ids a
            (spread {| address := Some a; name := Some (accountName (index + 1)) |}
                    (default emptyEntry (JsObject.get old a))))
       i L acc).
Proof.
  intros Hold. revert i acc.
  induction L as [|k L IH]; intros i acc Hacc HL; simpl; [done|].
  apply IH; [|intros k' Hk'; apply HL; by right].
  apply Forall_set; [done|]. simpl.
  destruct (JsObject.get old k) as [e|] eqn:Hget; simpl.
  - destruct (keyed_lookup _ _ _ Hold Hget) as (a & -> & Ha). simpl. by rewrite Ha.
  - rewrite HL; [done | left].
Qed.

(** The invariant survives every mutator of the identity map, except that
    [setAccountLabel] needs the address to have an identity already. *)
Lemma keyedByChecksum_preserved st :
  keyedByChecksum cs (identities st) →
  (∀ l, keyedByChecksum cs (identities (addIdentities cs st l)))
  ∧ (∀ a, keyedByChecksum cs (identities (removeIdentity cs st a)))
  ∧ (∀ l, keyedByChecksum cs (identities (syncIdentities cs st l).1))
  ∧ (∀ l, keyedByChecksum cs (identities (updateIdentities cs st l)))
  ∧ (∀ a label, cs a ∈ JsObject.keys (identities st) →
       keyedByChecksum cs (identities (setAccountLabel cs st a label))).
Proof.
  intros Hinv. split_and!.
  - intros l. simpl. by apply keyed_addIdentities_fold.
  - intros a. unfold removeIdentity.
    destruct (JsObject.get (identities st) (cs a)); [|done].
    simpl. case_decide; simpl; by apply Forall_del.
  - intros l. unfold syncIdentities.
    pose proof (keyed_syncLoop_fold (cs <$> l) (JsObject.keys (identities st))
                  (identities st, []) Hinv) as Hloop.
    destruct (foldl _ _ _) as [ids nl]. simpl in Hloop.
    assert (Hadd := keyed_addIdentities_fold ids (cs <$> l) Hloop).
    simpl. destruct (selectedAddress st); [case_decide|]; done.
  - intros l. simpl. apply keyed_reduceFrom; [done | apply Forall_nil_2 |].
    intros k (a & -> & _)%list_elem_of_fmap. apply checksum_idempotent.
  - intros a label [e He]%get_is_Some. unfold setAccountLabel. simpl.
    rewrite He. simpl. rewrite get_set_eq.
    destruct (keyed_lookup _ _ _ Hinv He) as (a' & Hadr & Ha').
    apply Forall_set; [by apply Forall_set; [|simpl; rewrite Hadr; simpl; rewrite Ha']|].
    simpl. rewrite Hadr. simpl. by rewrite Ha'.
Qed.

(** C1 (the invariant "every key of [identities] is the checksummed form of
    the [address] field stored under it" fails): the default state satisfies
    it, and one call of [setAccountLabel] for an address without an identity
    reaches a state whose only record has a name and no [address] field, so
    its key is not the checksummed form of any stored address. *)
Theorem setAccountLabel_drops_address_field (a label : string) :
  let st' := setAccountLabel cs (defaultState (number := number)) a label in
  keyedByChecksum cs (identities (defaultState (number := number)))
  ∧ reachable cs st'
  ∧ identities st' = [(cs a, {| address := None; name := Some label |})]
  ∧ ¬ keyedByChecksum cs (identities st').
Proof.
  split_and!.
  - apply Forall_nil_2.
  - apply reach_setAccountLabel, reach_default.
  - cbn. rewrite !decide_True by done. done.
  - cbn. rewrite !decide_True by done. intros Hinv.
    apply Forall_cons in Hinv as [Hbad _]. simpl in Hbad. done.
Qed.

(** *** The keys of [identities] after the list operations *)

Lemma checksum_fmap_idempotent l : cs <$> (cs <$> l) = cs <$> l.
Proof.
  rewrite <- list_fmap_compose. apply list_fmap_ext.
  intros i a _. simpl. apply checksum_idempotent.
Qed.

Lemma keys_numbered (f : nat → string → ContactEntry) l :
  JsObject.keys (imap (λ i a, (a, f i a)) l) = l.
Proof.
  unfold JsObject.keys. revert f.
  induction l as [|a l IH]; intros f; simpl; [done|]. f_equal. apply IH.
Qed.

Lemma elem_of_keys_addIdentities_fold ids l k :
  k ∈ JsObject.keys (foldl (addIdentity cs) ids l) ↔
  k ∈ JsObject.keys ids ∨ k ∈ cs <$> l.
Proof.
  rewrite addIdentities_fold, keys_app, elem_of_app, keys_numbered,
    elem_of_newAddresses.
  destruct (decide (k ∈ JsObject.keys ids)); tauto.
Qed.

Lemma elem_of_keys_syncIdentities st l k :
  JsObject.wf (identities st) →
  k ∈ JsObject.keys (identities (syncIdentities cs st l).1) ↔ k ∈ cs <$> l.
Proof.
  intros Hwf. destruct (syncIdentities_unfold st l Hwf) as (-> & _).
  rewrite elem_of_keys_addIdentities_fold, checksum_fmap_idempotent.
  pose proof (keys_filter (λ k, k ∈ cs <$> l) (identities st)) as Hkept.
  simpl in Hkept. rewrite Hkept, list_elem_of_filter. tauto.
Qed.

Lemma keys_nil_inv ids : (∀ k, k ∉ JsObject.keys ids) → ids = [].
Proof.
  destruct ids as [|[k e] ids]; [done|]. intros Hk.
  destruct (Hk k). simpl. left.
Qed.

(** C2: after [removeIdentity] or [syncIdentities], a selected address that
    was a key of [identities] and no longer is one has been replaced by a
    key that is still there, or by [undefined] when no identity is left; the
    selection never dangles.  For [syncIdentities] this holds whatever the
    selection was before. *)
Theorem selection_never_dangles st :
  JsObject.wf (identities st) →
  (∀ a s,
     selectedAddress st = Some s →
     s ∈ JsObject.keys (identities st) →
     s ∉ JsObject.keys (identities (removeIdentity cs st a)) →
     selectionSettled (removeIdentity cs st a))
  ∧ (∀ l, selectionSettled (syncIdentities cs st l).1).
Proof.
  intros Hwf. split.
  - intros a s Hsel Hin Hout. revert Hout. unfold removeIdentity.
    destruct (JsObject.get (identities st) (cs a)) as [e|] eqn:Hget; [|done].
    simpl. rewrite Hsel. destruct (decide (Some (cs a) = Some s)) as [Heq|Hne].
    + intros _. unfold selectionSettled. simpl.
      destruct (JsObject.keys (JsObject.del (identities st) (cs a)))
        as [|k ks] eqn:Hkeys; simpl.
      * apply keys_nil_inv. intros k. rewrite Hkeys. apply not_elem_of_nil.
      * left.
    + simpl. rewrite elem_of_keys_del. intros Hout. destruct Hout.
      split; [congruence | done].
  - intros l. unfold selectionSettled.
    pose proof (elem_of_keys_syncIdentities st l) as Hkeys.
    destruct (syncIdentities_unfold st l Hwf) as (_ & _ & Hsel & _).
    simpl in Hsel. rewrite Hsel.
    assert (Hhead : match head (cs <$> l) with
                    | Some s => s ∈ JsObject.keys (identities (syncIdentities cs st l).1)
                    | None => identities (syncIdentities cs st l).1 = []
                    end).
    { destruct (cs <$> l) as [|k L] eqn:HL; simpl.
      - apply keys_nil_inv. intros k. rewrite Hkeys by done. apply not_elem_of_nil.
      - apply Hkeys; [done | left]. }
    destruct (selectedAddress st) as [s|]; [|done].
    case_decide; [|done]. by apply Hkeys.
Qed.

(** *** [syncIdentities] *)

Lemma get_numbered (f : nat → string → ContactEntry) l k :
  k ∈ l → ∃ i, JsObject.get (imap (λ i a, (a, f i a)) l) k = Some (f i k).
Proof.
  revert f. induction l as [|a l IH]; intros f Hk; [by apply elem_of_nil in Hk|].
  simpl. destruct (decide (a = k)) as [->|Hne]; [by exists 0|].
  apply elem_of_cons in Hk as [->|Hk]; [done|].
  destruct (IH (f ∘ S) Hk) as [i Hi]. by exists (S i).
Qed.

Lemma wf_filter_key (P : string → Prop) `{!∀ k, Decision (P k)} ids :
  JsObject.wf ids → JsObject.wf (filter (λ kv, P kv.1) ids).
Proof.
  unfold JsObject.wf. intros Hwf. rewrite (keys_filter P). by apply NoDup_filter.
Qed.

(** C3: [syncIdentities] moves the identities whose key is not in the
    checksummed list to [lostIdentities] (over any lost entry of that key),
    keeps those whose key is in it, gives every listed address that has no
    identity a default-named one whatever [lostIdentities] holds, selects the
    first element of the list when the selected address is not in it, and
    returns the selected address.  On identities 0x1 and 0x2 with 0x1
    selected, syncing with the list of 0x2 alone moves 0x1 to the lost
    identities, keeps 0x2 and returns 0x2. *)
Theorem syncIdentities_moves_keeps_reselects st l :
  JsObject.wf (identities st) →
  let L := cs <$> l in
  let st' := (syncIdentities cs st l).1 in
  let kept := filter (λ kv, kv.1 ∈ L) (identities st) in
  (∀ k e, JsObject.get (identities st) k = Some e → k ∉ L →
     JsObject.get (identities st') k = None
     ∧ JsObject.get (lostIdentities st') k = Some e)
  ∧ (∀ k e, JsObject.get (identities st) k = Some e → k ∈ L →
       JsObject.get (identities st') k = Some e)
  ∧ (∀ k, k ∈ L → JsObject.get (identities st) k = None →
       ∃ i, JsObject.get (identities st') k
            = Some (defaultIdentity (length kept + i) k))
  ∧ identities st' =
      kept ++ imap (λ i a, (a, defaultIdentity (length kept + i) a))
                   (newAddresses (JsObject.keys kept) L)
  ∧ (∀ k, k ∉ JsObject.keys (identities st) ∨ k ∈ L →
       JsObject.get (lostIdentities st') k = JsObject.get (lostIdentities st) k)
  ∧ selectedAddress st' =
      match selectedAddress st with
      | Some s => if decide (s ∈ L) then Some s else head L
      | None => head L
      end
  ∧ (syncIdentities cs st l).2 = selectedAddress st'
  ∧ (∀ e1 e2 lost ff (toks : list (Token number)),
       cs "0x1" ≠ cs "0x2" →
       let r := syncIdentities cs
                  {| featureFlags := ff;
                     identities := [(cs "0x1", e1); (cs "0x2", e2)];
                     lostIdentities := lost;
                     selectedAddress := Some (cs "0x1");
                     tokens := toks |} ["0x2"] in
       identities r.1 = [(cs "0x2", e2)]
       ∧ JsObject.get (lostIdentities r.1) (cs "0x1") = Some e1
       ∧ r.2 = Some (cs "0x2")).
Proof.
  intros Hwf L st' kept.
  destruct (syncIdentities_unfold st l Hwf) as (Hids & Hlost & Hsel & Hret & _).
  fold L st' kept in Hids, Hlost, Hsel, Hret.
  assert (Hclosed : identities st' =
      kept ++ imap (λ i a, (a, defaultIdentity (length kept + i) a))
                   (newAddresses (JsObject.keys kept) L)).
  { rewrite Hids, addIdentities_fold. unfold L.
    by rewrite checksum_fmap_idempotent. }
  assert (Hkept : ∀ k, JsObject.get kept k
                       = if decide (k ∈ L) then JsObject.get (identities st) k else None).
  { intros k. exact (get_filter_key (λ k, k ∈ L) (identities st) k). }
  assert (Hgone : ∀ k, JsObject.get (filter (λ kv, kv.1 ∉ L) (identities st)) k
                       = if decide (k ∉ L) then JsObject.get (identities st) k else None).
  { intros k. exact (get_filter_key (λ k, k ∉ L) (identities st) k). }
  assert (Hlost' : ∀ k, JsObject.get (lostIdentities st') k =
            match JsObject.get (filter (λ kv, kv.1 ∉ L) (identities st)) k with
            | Some e => Some e
            | None => JsObject.get (lostIdentities st) k
            end).
  { intros k. rewrite Hlost. apply get_assign_all.
    exact (wf_filter_key (λ k, k ∉ L) (identities st) Hwf). }
  split_and!.
  - intros k e Hget HL. split.
    + apply get_None. unfold st'. rewrite elem_of_keys_syncIdentities by done. done.
    + rewrite Hlost', Hgone, decide_True by done. by rewrite Hget.
  - intros k e Hget HL. rewrite Hclosed, get_app, Hkept, decide_True by done.
    by rewrite Hget.
  - intros k HL Hget. rewrite Hclosed, get_app, Hkept, decide_True by done.
    rewrite Hget. apply get_numbered. rewrite elem_of_newAddresses. split; [done|].
    apply get_None. by rewrite Hkept, decide_True.
  - done.
  - intros k Hk. rewrite Hlost', Hgone. case_decide; [|done].
    destruct Hk as [Hk%get_None|Hk]; [by rewrite Hk | done].
  - done.
  - done.
  - intros e1 e2 lost ff toks Hne r.
    assert (Hwf2 : JsObject.wf [(cs "0x1", e1); (cs "0x2", e2)]).
    { unfold JsObject.wf. simpl. apply NoDup_cons. split.
      - by intros ?%list_elem_of_singleton.
      - apply NoDup_singleton. }
    destruct (syncIdentities_unfold
                {| featureFlags := ff;
                   identities := [(cs "0x1", e1); (cs "0x2", e2)];
                   lostIdentities := lost;
                   selectedAddress := Some (cs "0x1");
                   tokens := toks |} ["0x2"] Hwf2) as (Hi & Hl & Hs & Hr & _).
    fold r in Hi, Hl, Hs, Hr. simpl in Hi, Hl, Hs.
    assert (H1 : cs "0x1" ∉ [cs "0x2"]) by (by intros ?%list_elem_of_singleton).
    assert (H2 : cs "0x2" ∈ [cs "0x2"]) by left.
    rewrite !filter_cons, filter_nil in Hi, Hl. simpl in Hi, Hl.
    rewrite (decide_False (P := cs "0x1" ∈ [cs "0x2"])) in Hi by done.
    rewrite (decide_True (P := cs "0x2" ∈ [cs "0x2"])) in Hi by done.
    rewrite (decide_True (P := cs "0x1" ∉ [cs "0x2"])) in Hl by done.
    rewrite (decide_False (P := cs "0x2" ∉ [cs "0x2"])) in Hl by tauto.
    rewrite (decide_False (P := cs "0x1" ∈ [cs "0x2"])) in Hs by done.
    simpl in Hi, Hl, Hs. split_and!.
    + rewrite Hi. unfold addIdentity. rewrite checksum_idempotent. simpl.
      by rewrite decide_True.
    + rewrite Hl. apply get_set_eq.
    + by rewrite Hr, Hs.
Qed.


(** *** [addIdentities] *)

(** C8: [addIdentities] treats the addresses one after the other; an address
    whose checksummed form is a key is skipped, any other gets the record
    [{ name: "Account N", address }] appended, N being one more than the
    number of identities stored at that moment.  So the records inserted by
    one call are those of the checksummed inputs that are not keys yet,
    without repetition and in input order, numbered consecutively from the
    identity count plus one.  On the empty store, 0x1 and 0x2 become
    Account 1 and Account 2, also when the input repeats them. *)
Theorem addIdentities_numbers_new_addresses st l :
  let ids := identities st in
  let st' := addIdentities cs st l in
  let new := newAddresses (JsObject.keys ids) (cs <$> l) in
  (∀ a, identities (addIdentities cs st (l ++ [a]))
        = addIdentity cs (identities st') a)
  ∧ (∀ ids0 a,
       addIdentity cs ids0 a =
         if decide (cs a ∈ JsObject.keys ids0) then ids0
         else ids0 ++ [(cs a, {| address := Some (cs a);
                                 name := Some (accountName (length ids0 + 1)) |})])
  ∧ identities st' =
      ids ++ imap (λ i a, (a, {| address := Some a;
                                 name := Some (accountName (length ids + i + 1)) |}))
                  new
  ∧ (∀ a, a ∈ new ↔ a ∈ cs <$> l ∧ a ∉ JsObject.keys ids)
  ∧ NoDup new
  ∧ (∀ k, k ∈ JsObject.keys ids →
       JsObject.get (identities st') k = JsObject.get ids k)
  ∧ (featureFlags st' = featureFlags st
     ∧ lostIdentities st' = lostIdentities st
     ∧ selectedAddress st' = selectedAddress st
     ∧ tokens st' = tokens st)
  ∧ (cs "0x1" ≠ cs "0x2" →
     let two := [(cs "0x1", {| address := Some (cs "0x1"); name := Some "Account 1" |});
                 (cs "0x2", {| address := Some (cs "0x2"); name := Some "Account 2" |})] in
     identities (addIdentities cs (defaultState (number := number)) ["0x1"; "0x2"])
       = two
     ∧ identities (addIdentities cs (defaultState (number := number))
                     ["0x1"; "0x2"; "0x1"; "0x2"])
       = two).
Proof.
  intros ids st' new. split_and!; try done.
  - intros a. simpl. by rewrite foldl_app.
  - intros ids0 a. apply addIdentity_unfold.
  - apply addIdentities_fold.
  - intros a. apply elem_of_newAddresses.
  - apply NoDup_newAddresses.
  - intros k [e He]%get_is_Some. unfold st'. simpl.
    rewrite addIdentities_fold, get_app. fold ids. by rewrite He.
  - intros Hne two.
    assert (Hstep : foldl (addIdentity cs) [] ["0x1"; "0x2"] = two).
    { simpl. unfold addIdentity at 2. simpl. unfold addIdentity. simpl.
      rewrite decide_False by done. simpl. by rewrite decide_False by done. }
    split; [exact Hstep|].
    change ["0x1"; "0x2"; "0x1"; "0x2"] with (["0x1"; "0x2"] ++ ["0x1"; "0x2"]).
    cbn [addIdentities update_identities identities defaultState].
    rewrite foldl_app, Hstep. cbn [foldl]. rewrite !addIdentity_unfold.
    assert (H1 : cs "0x1" ∈ JsObject.keys two) by (simpl; left).
    assert (H2 : cs "0x2" ∈ JsObject.keys two) by (simpl; right; left).
    rewrite (decide_True (P := cs "0x1" ∈ JsObject.keys two)) by done.
    by rewrite (decide_True (P := cs "0x2" ∈ JsObject.keys two)) by done.
Qed.

(** *** [updateIdentities] *)

(** The callback [updateIdentities] hands to [reduce]. *)
Local Abbreviation updater old :=
  (λ (ids : jsobject ContactEntry) (a : string) (index : nat),
     JsObject.set ids a
       (spread {| address := Some a; name := Some (accountName (index + 1)) |}
               (default emptyEntry (JsObject.get old a)))).

Lemma reduceFrom_app {A B} (f : B → A → nat → B) i (l1 l2 : list A) acc :
  reduceFrom f i (l1 ++ l2) acc
  = reduceFrom f (i + length l1) l2 (reduceFrom f i l1 acc).
Proof.
  revert i acc. induction l1 as [|x l1 IH]; intros i acc; simpl.
  - by rewrite Nat.add_0_r.
  - rewrite IH. by replace (i + S (length l1)) with (S i + length l1) by lia.
Qed.

Lemma get_update_absent old L i acc k :
  k ∉ L → JsObject.get (reduceFrom (updater old) i L acc) k = JsObject.get acc k.
Proof.
  revert i acc. induction L as [|a L IH]; intros i acc Hk; simpl; [done|].
  apply not_elem_of_cons in Hk as [Hne Hk].
  rewrite IH by done. by rewrite get_set_ne.
Qed.

Lemma elem_of_keys_update old L i acc k :
  k ∈ JsObject.keys (reduceFrom (updater old) i L acc)
  ↔ k ∈ JsObject.keys acc ∨ k ∈ L.
Proof.
  revert i acc. induction L as [|a L IH]; intros i acc; simpl.
  - rewrite elem_of_nil. tauto.
  - rewrite IH, elem_of_keys_set, elem_of_cons. tauto.
Qed.

Lemma get_update_last old L1 L2 i acc k :
  k ∉ L2 →
  JsObject.get (reduceFrom (updater old) i (L1 ++ k :: L2) acc) k
  = Some (spread (defaultIdentity (i + length L1) k)
                 (default emptyEntry (JsObject.get old k))).
Proof.
  intros Hk. rewrite reduceFrom_app. simpl.
  rewrite get_update_absent by done. apply get_set_eq.
Qed.


(** C10: [updateIdentities] replaces [identities] and nothing else; a
    selected address missing from the input is left as it is, naming an
    address that is not a key of [identities] any more. *)
Theorem updateIdentities_frame st l :
  let st' := updateIdentities cs st l in
  featureFlags st' = featureFlags st
  ∧ lostIdentities st' = lostIdentities st
  ∧ selectedAddress st' = selectedAddress st
  ∧ tokens st' = tokens st
  ∧ (∀ s, selectedAddress st = Some s → s ∉ cs <$> l →
       selectedAddress st' = Some s ∧ s ∉ JsObject.keys (identities st')).
Proof.
  intros st'. split_and!; try done.
  intros s Hsel Hs. split; [done|]. unfold st'. simpl.
  rewrite elem_of_keys_update. simpl. rewrite elem_of_nil. tauto.
Qed.


(** *** [addToken] *)

Implicit Types (new t : Token number) (toks pre post : list (Token number)).

Lemma addToken_replaceOrAppend st a sym dec :
  (addToken cs st a sym dec).2
  = replaceOrAppend (cs a) (mkToken (cs a) sym dec) (tokens st).
Proof.
  unfold addToken. simpl. generalize (mkToken (cs a) sym dec) as new.
  intros new. induction (tokens st) as [|t toks IH]; simpl; [done|].
  case_decide; simpl; [done|].
  destruct (list_find _ toks) as [[i t']|]; simpl in *; by rewrite IH.
Qed.

Lemma replaceOrAppend_found a new pre t post :
  tokenAddress t = a → Forall (λ t, tokenAddress t ≠ a) pre →
  replaceOrAppend a new (pre ++ t :: post) = pre ++ new :: post.
Proof.
  intros Ht Hpre. induction Hpre as [|t0 pre H0 _ IH]; simpl.
  - by rewrite decide_True.
  - by rewrite decide_False, IH.
Qed.

Lemma replaceOrAppend_missing a new toks :
  Forall (λ t, tokenAddress t ≠ a) toks →
  replaceOrAppend a new toks = toks ++ [new].
Proof.
  intros Htoks. induction Htoks as [|t0 toks H0 _ IH]; simpl; [done|].
  by rewrite decide_False, IH.
Qed.

Lemma replaceOrAppend_again a new new' toks :
  tokenAddress new = a →
  replaceOrAppend a new' (replaceOrAppend a new toks)
  = replaceOrAppend a new' toks.
Proof.
  intros Hnew. induction toks as [|t toks IH]; simpl.
  - by rewrite decide_True.
  - case_decide; simpl; [by rewrite decide_True | by rewrite decide_False, IH].
Qed.

Lemma tokens_split a toks :
  Forall (λ t, tokenAddress t ≠ a) toks
  ∨ ∃ pre t post, toks = pre ++ t :: post ∧ tokenAddress t = a
                  ∧ Forall (λ t, tokenAddress t ≠ a) pre.
Proof.
  induction toks as [|t toks IH]; [left; apply Forall_nil_2|].
  destruct (decide (tokenAddress t = a)) as [Ht|Ht].
  - right. exists [], t, toks. split_and!; [done | done | apply Forall_nil_2].
  - destruct IH as [IH|(pre & t' & post & -> & Ht' & Hpre)].
    + left. by apply Forall_cons.
    + right. exists (t :: pre), t', post. split_and!; [done | done |].
      by apply Forall_cons.
Qed.

(** C9: [addToken] puts [{ address, symbol, decimals }], with the address
    checksummed, in the place of the first token of that address, the
    tokens before and after it staying where they are, or at the end when
    there is none; symbol and decimals are stored as given, whatever they
    are; the updated sequence is returned.  Adding an address again in
    another spelling of the same checksummed form overwrites the entry of
    the first addition and adds none. *)
Theorem addToken_replaces_in_place_or_appends st a sym dec :
  let new := mkToken (cs a) sym dec in
  let r := addToken cs st a sym dec in
  r.2 = tokens r.1
  ∧ (∀ pre t post,
       tokens st = pre ++ t :: post → tokenAddress t = cs a →
       Forall (λ t, tokenAddress t ≠ cs a) pre →
       r.2 = pre ++ new :: post)
  ∧ (Forall (λ t, tokenAddress t ≠ cs a) (tokens st) →
       r.2 = tokens st ++ [new])
  ∧ (featureFlags r.1 = featureFlags st
     ∧ identities r.1 = identities st
     ∧ lostIdentities r.1 = lostIdentities st
     ∧ selectedAddress r.1 = selectedAddress st)
  ∧ (∀ a' sym' dec',
       cs a' = cs a →
       let r' := addToken cs r.1 a' sym' dec' in
       r'.2 = (addToken cs st a sym' dec').2
       ∧ length r'.2 = length r.2
       ∧ (tokens st = [] → r'.2 = [mkToken (cs a) sym' dec'])).
Proof.
  intros new r.
  assert (Hr : r.2 = replaceOrAppend (cs a) new (tokens st))
    by apply addToken_replaceOrAppend.
  split_and!; try done.
  - intros pre t post Htoks Ht Hpre. rewrite Hr, Htoks.
    by apply replaceOrAppend_found.
  - intros Hnone. rewrite Hr. by apply replaceOrAppend_missing.
  - intros a' sym' dec' Ha' r'.
    assert (Hr' : r'.2 = (addToken cs st a sym' dec').2).
    { unfold r'. rewrite !addToken_replaceOrAppend, Ha'.
      change (tokens r.1) with r.2. rewrite Hr.
      by apply replaceOrAppend_again. }
    split_and!; [done | |].
    + rewrite Hr', Hr, addToken_replaceOrAppend.
      destruct (tokens_split (cs a) (tokens st))
        as [Hnone|(pre & t & post & -> & Ht & Hpre)].
      * rewrite !replaceOrAppend_missing by done. by rewrite !length_app.
      * rewrite !replaceOrAppend_found by done. by rewrite !length_app.
    + intros Hempty. rewrite Hr', addToken_replaceOrAppend, Hempty. done.
Qed.

(** *** Reachable states hold well-formed objects *)

Lemma wf_addIdentities_fold ids l :
  JsObject.wf ids → JsObject.wf (foldl (addIdentity cs) ids l).
Proof.
  revert ids. induction l as [|a l IH]; intros ids Hwf; simpl; [done|].
  apply IH. unfold addIdentity.
  destruct (JsObject.get ids (cs a)); [done | by apply wf_set].
Qed.

Lemma wf_reduceFrom_update old L i acc :
  JsObject.wf acc → JsObject.wf (reduceFrom (updater old) i L acc).
Proof.
  revert i acc. induction L as [|a L IH]; intros i acc Hwf; simpl; [done|].
  apply IH. by apply wf_set.
Qed.

Lemma reachable_wf st : reachable cs st → JsObject.wf (identities st).
Proof.
  induction 1 as [|st l _ IH|st a sym dec _ IH|st a _ IH|st a _ IH
                  |st a label _ IH|st f b _ IH|st l _ IH|st l _ IH]; simpl.
  - apply NoDup_nil_2.
  - by apply wf_addIdentities_fold.
  - done.
  - unfold removeIdentity.
    destruct (JsObject.get (identities st) (cs a)); [|done].
    simpl. case_decide; simpl; by apply wf_del.
  - done.
  - destruct (JsObject.get (JsObject.set _ _ _) _); [|by apply wf_set].
    by do 2 apply wf_set.
  - done.
  - destruct (syncIdentities_unfold st l IH) as (Hids & _). simpl in Hids.
    rewrite Hids. apply wf_addIdentities_fold.
    exact (wf_filter_key (λ k, k ∈ cs <$> l) (identities st) IH).
  - apply wf_reduceFrom_update, NoDup_nil_2.
Qed.

End PreferencesFacts.

(** ** The ERC-721 probes *)

Section ProbeFacts.
Import Remote.
Context {Contract Error : Type}.
Variable web3At : string → Contract.
Variable node : Node Contract Error.
Variable ERC721_INTERFACE_ID : string.
Variable ERC721_METADATA_INTERFACE_ID : string.
Variable ERC721 : string.

Local Abbreviation supportsCall contract interfaceId :=
  (mkCall contract (SupportsInterface interfaceId)).

(** C7: in both probes [contractSupportsInterface] issues one remote call,
    [supportsInterface] of the given identifier on the contract, resolves to
    the boolean the call reports and rejects with the error the call
    reports; the probe that takes an address behaves as the probe that takes
    the contract bound to that address, and so do their metadata checks and
    token-URI lookups when the metadata identifier is the same. *)
Theorem supportsInterface_variants_agree (address interfaceId : string)
    (contract : Contract) (log : list (Call Contract)) :
  let byAddress :=
    ERC721Standard.contractSupportsInterface web3At node address interfaceId in
  let byMethods :=
    ERC721StandardMethods.contractSupportsInterface node contract interfaceId in
  (byAddress log).2 = log ++ [supportsCall (web3At address) interfaceId]
  ∧ (∀ b, replyBool node log (supportsCall (web3At address) interfaceId) = inr b →
       (byAddress log).1 = Resolved b)
  ∧ (∀ e, replyBool node log (supportsCall (web3At address) interfaceId) = inl e →
       (byAddress log).1 = Rejected (Propagated e))
  ∧ (byMethods log).2 = log ++ [supportsCall contract interfaceId]
  ∧ (∀ b, replyBool node log (supportsCall contract interfaceId) = inr b →
       (byMethods log).1 = Resolved b)
  ∧ (∀ e, replyBool node log (supportsCall contract interfaceId) = inl e →
       (byMethods log).1 = Rejected (Propagated e))
  ∧ (contract = web3At address → byAddress log = byMethods log)
  ∧ (contract = web3At address →
     ERC721_METADATA_INTERFACE_ID
       = ERC721StandardMethods.ERC721_METADATA_INTERFACE_ID →
     ERC721Standard.contractSupportsMetadataInterface
       web3At node ERC721_METADATA_INTERFACE_ID address log
     = ERC721StandardMethods.contractSupportsMetadataInterface node contract log
     ∧ ∀ tokenId,
         ERC721Standard.getTokenURI
           web3At node ERC721_METADATA_INTERFACE_ID address tokenId log
         = ERC721StandardMethods.getCollectibleTokenURI node contract tokenId log).
Proof.
  intros byAddress byMethods. unfold byAddress, byMethods.
  unfold ERC721Standard.contractSupportsInterface,
    ERC721StandardMethods.contractSupportsInterface, callBool. simpl.
  split_and!; try done.
  - by intros b ->.
  - by intros e ->.
  - by intros b ->.
  - by intros e ->.
  - by intros ->.
  - by intros -> ->.
Qed.

(** C5: when the metadata-interface check reports [false], [getTokenURI] and
    [getCollectibleTokenURI] reject with the error of message "Contract does
    not support ERC721 metadata interface." after one remote call, the
    check itself; [tokenURI] is not called. *)
Theorem tokenURI_needs_metadata_interface (address tokenId : string)
    (contract : Contract) (log : list (Call Contract)) :
  (replyBool node log (supportsCall (web3At address) ERC721_METADATA_INTERFACE_ID)
     = inr false →
   ERC721Standard.getTokenURI
     web3At node ERC721_METADATA_INTERFACE_ID address tokenId log
   = (Rejected (Thrown "Contract does not support ERC721 metadata interface."),
      log ++ [supportsCall (web3At address) ERC721_METADATA_INTERFACE_ID]))
  ∧ (replyBool node log
       (supportsCall contract ERC721StandardMethods.ERC721_METADATA_INTERFACE_ID)
       = inr false →
     ERC721StandardMethods.getCollectibleTokenURI node contract tokenId log
     = (Rejected (Thrown "Contract does not support ERC721 metadata interface."),
        log ++ [supportsCall contract
                  ERC721StandardMethods.ERC721_METADATA_INTERFACE_ID])).
Proof.
  split; intros Hreply.
  - unfold ERC721Standard.getTokenURI, bind,
      ERC721Standard.contractSupportsMetadataInterface,
      ERC721Standard.contractSupportsInterface, callBool.
    by rewrite Hreply.
  - unfold ERC721StandardMethods.getCollectibleTokenURI, bind,
      ERC721StandardMethods.contractSupportsMetadataInterface,
      ERC721StandardMethods.contractSupportsInterface, callBool.
    by rewrite Hreply.
Qed.

(** *** [getDetails] *)

Local Abbreviation baseCall address :=
  (supportsCall (web3At address) ERC721_INTERFACE_ID).
Local Abbreviation metaCall address :=
  (supportsCall (web3At address) ERC721_METADATA_INTERFACE_ID).
Local Abbreviation getDetails :=
  (ERC721Standard.getDetails web3At node ERC721_INTERFACE_ID
     ERC721_METADATA_INTERFACE_ID ERC721).
Local Abbreviation notERC721 :=
  (Rejected (A := ERC721Standard.Details) (Error := Error)
     (Thrown "This isn't a valid ERC721 contract")).

(** Unfolds [getDetails] down to the replies of the node. *)
Ltac run_getDetails :=
  unfold ERC721Standard.getDetails, bind, all2,
    ERC721Standard.contractSupportsBase721Interface,
    ERC721Standard.contractSupportsMetadataInterface,
    ERC721Standard.getAssetSymbol, ERC721Standard.getAssetName,
    ERC721Standard.getTokenURI, bind,
    ERC721Standard.contractSupportsMetadataInterface,
    ERC721Standard.contractSupportsInterface, callBool, callString, ret, throw,
    settle.

Lemma snoc_two {A} (l : list A) (x y : A) : l ++ [x; y] = (l ++ [x]) ++ [y].
Proof. by rewrite <- app_assoc. Qed.

(** Writes every log as the computation builds it, one call at a time. *)
Ltac nest_logs := rewrite ?snoc_two in *.

(** Rewrites with the replies that are assumed. *)
Ltac use_replies :=
  repeat match goal with
    | H : replyBool node _ _ = _ |- _ => rewrite H; clear H; simpl
    | H : replyString node _ _ = _ |- _ => rewrite H; clear H; simpl
    end.

(** C6, as the code has it: when the base-interface check reports [false],
    [getDetails] never resolves.  It rejects with the error "This isn't a
    valid ERC721 contract" when the other calls it issues succeed, that is
    when the metadata check reports [false], or reports [true] and symbol,
    name and (for a token id) the token URI are gathered.  Otherwise it
    rejects as the first step that goes wrong does: with the error of the
    metadata check, of [symbol] or [name] (of the one that rejects first
    when both fail), of the metadata check that [getTokenURI] repeats, or
    of [tokenURI], and with "Contract does not support ERC721 metadata
    interface." when the repeated metadata check reports [false].  With
    the calls succeeding and the base check reporting [true], it resolves
    to the aggregate of the standard name and the gathered fields. *)
Theorem getDetails_base_interface (address : string) (tokenId : option string)
    (log : list (Call Contract)) (isERC721 : bool) :
  replyBool node log (baseCall address) = inr isERC721 →
  let log2 := log ++ [baseCall address; metaCall address] in
  let log4 := log2 ++ [mkCall (web3At address) Symbol;
                       mkCall (web3At address) Name] in
  let finish (d : ERC721Standard.Details) :=
    if isERC721 then Resolved d else notERC721 in
  (isERC721 = false → ∃ r, (getDetails address tokenId log).1 = Rejected r)
  ∧ (replyBool node (log ++ [baseCall address]) (metaCall address) = inr false →
     getDetails address tokenId log
     = (finish (ERC721Standard.mkDetails ERC721 None None None), log2))
  ∧ (∀ s n,
       replyBool node (log ++ [baseCall address]) (metaCall address) = inr true →
       replyString node log2 (mkCall (web3At address) Symbol) = inr s →
       replyString node (log2 ++ [mkCall (web3At address) Symbol])
         (mkCall (web3At address) Name) = inr n →
       (truthy tokenId = false →
        getDetails address tokenId log
        = (finish (ERC721Standard.mkDetails ERC721 None (Some s) (Some n)), log4))
       ∧ (∀ id u,
            tokenId = Some id → id ≠ EmptyString →
            replyBool node log4 (metaCall address) = inr true →
            replyString node (log4 ++ [metaCall address])
              (mkCall (web3At address) (TokenURI id)) = inr u →
            getDetails address tokenId log
            = (finish (ERC721Standard.mkDetails ERC721 (Some u) (Some s) (Some n)),
               log4 ++ [metaCall address;
                        mkCall (web3At address) (TokenURI id)])))
  ∧ (∀ e,
       replyBool node (log ++ [baseCall address]) (metaCall address) = inl e →
       getDetails address tokenId log = (Rejected (Propagated e), log2))
  ∧ (replyBool node (log ++ [baseCall address]) (metaCall address) = inr true →
     (∀ e1 n,
        replyString node log2 (mkCall (web3At address) Symbol) = inl e1 →
        replyString node (log2 ++ [mkCall (web3At address) Symbol])
          (mkCall (web3At address) Name) = inr n →
        getDetails address tokenId log = (Rejected (Propagated e1), log4))
     ∧ (∀ s e2,
          replyString node log2 (mkCall (web3At address) Symbol) = inr s →
          replyString node (log2 ++ [mkCall (web3At address) Symbol])
            (mkCall (web3At address) Name) = inl e2 →
          getDetails address tokenId log = (Rejected (Propagated e2), log4))
     ∧ (∀ e1 e2,
          replyString node log2 (mkCall (web3At address) Symbol) = inl e1 →
          replyString node (log2 ++ [mkCall (web3At address) Symbol])
            (mkCall (web3At address) Name) = inl e2 →
          getDetails address tokenId log
          = (Rejected (Propagated (if firstRejectsFirst node log2 then e1 else e2)),
             log4))
     ∧ (∀ s n id,
          replyString node log2 (mkCall (web3At address) Symbol) = inr s →
          replyString node (log2 ++ [mkCall (web3At address) Symbol])
            (mkCall (web3At address) Name) = inr n →
          tokenId = Some id → id ≠ EmptyString →
          (∀ e, replyBool node log4 (metaCall address) = inl e →
                getDetails address tokenId log
                = (Rejected (Propagated e), log4 ++ [metaCall address]))
          ∧ (replyBool node log4 (metaCall address) = inr false →
             getDetails address tokenId log
             = (Rejected
                  (Thrown "Contract does not support ERC721 metadata interface."),
                log4 ++ [metaCall address]))
          ∧ (∀ e,
               replyBool node log4 (metaCall address) = inr true →
               replyString node (log4 ++ [metaCall address])
                 (mkCall (web3At address) (TokenURI id)) = inl e →
               getDetails address tokenId log
               = (Rejected (Propagated e),
                  log4 ++ [metaCall address;
                           mkCall (web3At address) (TokenURI id)])))).
Proof.
  intros Hbase log2 log4 finish. subst log2 log4 finish.
  split_and!.
  - intros ->. run_getDetails. rewrite Hbase. simpl.
    destruct (replyBool node (log ++ [baseCall address]) (metaCall address))
      as [e|[|]]; simpl; [by eexists | | by eexists].
    destruct (replyString node _ (mkCall (web3At address) Symbol)) as [e1|s];
      destruct (replyString node _ (mkCall (web3At address) Name)) as [e2|n];
      simpl; try (by eexists).
    destruct tokenId as [id|]; simpl; [|by eexists].
    case_decide; simpl; [by eexists|].
    destruct (replyBool node _ (metaCall address)) as [e|[|]]; simpl;
      try (by eexists).
    destruct (replyString node _ _) as [e|u]; simpl; by eexists.
  - intros Hmeta. nest_logs. run_getDetails. use_replies. by destruct isERC721.
  - intros s n Hmeta Hs Hn. split.
    + intros Hfalsy. nest_logs. run_getDetails. use_replies.
      destruct tokenId as [id|]; simpl in *.
      * destruct (decide (id = EmptyString)); [|done]. simpl. by destruct isERC721.
      * by destruct isERC721.
    + intros id u -> Hid Hmeta2 Hu. nest_logs. run_getDetails. use_replies.
      rewrite decide_False by done. simpl. use_replies. by destruct isERC721.
  - intros e Hmeta. nest_logs. run_getDetails. by use_replies.
  - intros Hmeta. split_and!.
    + intros e1 n Hs Hn. nest_logs. run_getDetails. by use_replies.
    + intros s e2 Hs Hn. nest_logs. run_getDetails. by use_replies.
    + intros e1 e2 Hs Hn. nest_logs. run_getDetails. use_replies.
      by destruct (firstRejectsFirst node _).
    + intros s n id Hs Hn -> Hid. split_and!.
      * intros e Hmeta2. nest_logs. run_getDetails. use_replies.
        rewrite decide_False by done. simpl. by use_replies.
      * intros Hmeta2. nest_logs. run_getDetails. use_replies.
        rewrite decide_False by done. simpl. by use_replies.
      * intros e Hmeta2 Hu. nest_logs. run_getDetails. use_replies.
        rewrite decide_False by done. simpl. by use_replies.
Qed.

End ProbeFacts.

(** * Runs on concrete inputs *)

Section Runs.
Import Preferences Sample.

(** Settles a decidable proposition on closed terms by evaluation. *)
Ltac evaluate := apply (bool_decide_unpack _); by vm_compute.

Lemma upperHexDigit_idempotent c : upperHexDigit (upperHexDigit c) = upperHexDigit c.
Proof.
  destruct c as [b0 b1 b2 b3 b4 b5 b6 b7].
  destruct b0, b1, b2, b3, b4, b5, b6, b7; by vm_compute.
Qed.

Lemma upperHex_idempotent a : upperHex (upperHex a) = upperHex a.
Proof.
  induction a as [|c a IH]; simpl; [done|].
  by rewrite upperHexDigit_idempotent, IH.
Qed.

Lemma twoIdentities_wf : JsObject.wf (identities twoIdentities).
Proof. unfold JsObject.wf. simpl. evaluate. Defined.

Lemma selection_never_dangles_witness :
  selectionSettled (removeIdentity upperHex twoIdentities "0xa1")
  ∧ selectedAddress (removeIdentity upperHex twoIdentities "0xa1") = Some "0xB2"
  ∧ selectionSettled (syncIdentities upperHex twoIdentities []).1
  ∧ selectedAddress (syncIdentities upperHex twoIdentities []).1 = None.
Proof.
  destruct (selection_never_dangles upperHex upperHex_idempotent
              twoIdentities twoIdentities_wf) as [Hremove Hsync].
  split_and!.
  - apply (Hremove "0xa1" "0xA1").
    + reflexivity.
    + evaluate.
    + evaluate.
  - reflexivity.
  - apply Hsync.
  - reflexivity.
Defined.

Lemma syncIdentities_moves_keeps_reselects_witness :
  let r := syncIdentities upperHex twoIdentities ["0xb2"; "0xc3"] in
  JsObject.get (identities r.1) "0xA1" = None
  ∧ JsObject.get (lostIdentities r.1) "0xA1"
    = Some {| address := Some "0xa1"; name := Some "main" |}
  ∧ JsObject.get (identities r.1) "0xB2"
    = Some {| address := Some "0xB2"; name := Some "spare" |}
  ∧ r.2 = Some "0xB2".
Proof.
  pose proof (syncIdentities_moves_keeps_reselects upperHex upperHex_idempotent
                twoIdentities ["0xb2"; "0xc3"] twoIdentities_wf)
    as (Hmoved & Hkept & _ & _ & _ & Hsel & Hret & _).
  destruct (Hmoved "0xA1" {| address := Some "0xa1"; name := Some "main" |})
    as [Hgone Hlost].
  { reflexivity. }
  { evaluate. }
  split_and!.
  - exact Hgone.
  - exact Hlost.
  - apply Hkept; [reflexivity | evaluate].
  - rewrite Hret, Hsel. reflexivity.
Defined.


Lemma updateIdentities_frame_witness :
  let st' := updateIdentities upperHex twoIdentities ["0xb2"] in
  selectedAddress st' = Some "0xA1"
  ∧ ("0xA1" ∉ JsObject.keys (identities st'))
  ∧ lostIdentities st' = [].
Proof.
  pose proof (updateIdentities_frame upperHex twoIdentities ["0xb2"])
    as (_ & Hlost & _ & _ & Hsel).
  destruct (Hsel "0xA1") as [Hsame Hdangling].
  { reflexivity. }
  { evaluate. }
  split_and!; [exact Hsame | exact Hdangling | exact Hlost].
Defined.

Lemma addIdentities_numbers_new_addresses_witness :
  identities (addIdentities upperHex (defaultState (number := nat)) ["0x1"; "0x2"])
  = [("0x1", {| address := Some "0x1"; name := Some "Account 1" |});
     ("0x2", {| address := Some "0x2"; name := Some "Account 2" |})]
  ∧ identities (addIdentities upperHex (defaultState (number := nat))
                  ["0x1"; "0x2"; "0x1"; "0x2"])
    = [("0x1", {| address := Some "0x1"; name := Some "Account 1" |});
       ("0x2", {| address := Some "0x2"; name := Some "Account 2" |})].
Proof.
  pose proof (addIdentities_numbers_new_addresses (number := nat) upperHex
                defaultState [])
    as (_ & _ & _ & _ & _ & _ & _ & Hexample).
  apply Hexample. vm_compute. discriminate.
Defined.

Lemma addToken_replaces_in_place_or_appends_witness :
  let st := (addToken upperHex (defaultState (number := nat)) "0xabc" "TKN" 18).1 in
  (addToken upperHex st "0xABC" "TKN2" 6).2
  = [{| tokenAddress := "0xABC"; symbol := "TKN2"; decimals := 6 |}]
  ∧ (addToken upperHex st "0xdef" "OTH" 0).2
    = [{| tokenAddress := "0xABC"; symbol := "TKN"; decimals := 18 |};
       {| tokenAddress := "0xDEF"; symbol := "OTH"; decimals := 0 |}].
Proof.
  intros st. split.
  - pose proof (addToken_replaces_in_place_or_appends (number := nat) upperHex
                  defaultState "0xabc" "TKN" 18)
      as (_ & _ & _ & _ & Hagain).
    destruct (Hagain "0xABC" "TKN2" 6) as (_ & _ & Hone); [reflexivity|].
    apply Hone. reflexivity.
  - pose proof (addToken_replaces_in_place_or_appends upperHex st "0xdef" "OTH" 0)
      as (_ & _ & Happend & _).
    apply Happend. repeat constructor. vm_compute. discriminate.
Defined.

(** The probes against the sample node; contracts are named by their
    address, so binding a contract to an address is the identity. *)

Local Abbreviation baseId := "0x80ac58cd".
Local Abbreviation metaId := "0x5b5e139f".
Local Abbreviation supports i := (Remote.mkCall "0xabc" (Remote.SupportsInterface i)).

Lemma supportsInterface_variants_agree_witness :
  let node := Sample.node baseId true false (inr "SYM") in
  ERC721Standard.contractSupportsInterface id node "0xabc" baseId []
  = (Remote.Resolved true, [supports baseId])
  ∧ ERC721StandardMethods.contractSupportsInterface node "0xabc" metaId []
    = (Remote.Resolved false, [supports metaId])
  ∧ ERC721Standard.contractSupportsInterface id node "0xabc" metaId []
    = ERC721StandardMethods.contractSupportsInterface node "0xabc" metaId []
  ∧ ERC721Standard.getTokenURI id node metaId "0xabc" "7" []
    = ERC721StandardMethods.getCollectibleTokenURI node "0xabc" "7" [].
Proof.
  intros node.
  pose proof (supportsInterface_variants_agree id node metaId "0xabc" baseId
                "0xabc" []) as (Hlog & Hbool & _).
  pose proof (supportsInterface_variants_agree id node metaId "0xabc" metaId
                "0xabc" []) as (_ & _ & _ & Hlog' & Hbool' & _ & Hsame & Hmeta).
  split_and!.
  - apply injective_projections; [by apply Hbool | exact Hlog].
  - apply injective_projections; [by apply Hbool' | exact Hlog'].
  - by apply Hsame.
  - by apply Hmeta.
Defined.

Lemma tokenURI_needs_metadata_interface_witness :
  let node := Sample.node baseId true false (inr "SYM") in
  ERC721Standard.getTokenURI id node metaId "0xabc" "7" []
  = (Remote.Rejected
       (Remote.Thrown "Contract does not support ERC721 metadata interface."),
     [supports metaId])
  ∧ ERC721StandardMethods.getCollectibleTokenURI node "0xabc" "7" []
    = (Remote.Rejected
         (Remote.Thrown "Contract does not support ERC721 metadata interface."),
       [supports metaId]).
Proof.
  intros node.
  destruct (tokenURI_needs_metadata_interface id node metaId "0xabc" "7" "0xabc" [])
    as [HbyAddress HbyMethods].
  split; [by apply HbyAddress | by apply HbyMethods].
Defined.

Lemma getDetails_base_interface_witness :
  ERC721Standard.getDetails id (Sample.node baseId false true (inr "SYM"))
    baseId metaId "ERC721" "0xabc" (Some "7") []
  = (Remote.Rejected (Remote.Thrown "This isn't a valid ERC721 contract"),
     [supports baseId; supports metaId;
      Remote.mkCall "0xabc" Remote.Symbol; Remote.mkCall "0xabc" Remote.Name;
      supports metaId; Remote.mkCall "0xabc" (Remote.TokenURI "7")])
  ∧ ERC721Standard.getDetails id (Sample.node baseId true true (inr "SYM"))
      baseId metaId "ERC721" "0xabc" None []
    = (Remote.Resolved
         (ERC721Standard.mkDetails "ERC721" None (Some "SYM") (Some "name")),
       [supports baseId; supports metaId;
        Remote.mkCall "0xabc" Remote.Symbol; Remote.mkCall "0xabc" Remote.Name])
  ∧ ERC721Standard.getDetails id
      (Sample.node baseId false true (inl "symbol() reverted"))
      baseId metaId "ERC721" "0xabc" None []
    = (Remote.Rejected (Remote.Propagated "symbol() reverted"),
       [supports baseId; supports metaId;
        Remote.mkCall "0xabc" Remote.Symbol; Remote.mkCall "0xabc" Remote.Name]).
Proof.
  split_and!.
  - pose proof (getDetails_base_interface id
                  (Sample.node baseId false true (inr "SYM"))
                  baseId metaId "ERC721" "0xabc" (Some "7") [] false eq_refl)
      as (_ & _ & Hgathered & _).
    destruct (Hgathered "SYM" "name" eq_refl eq_refl eq_refl) as [_ Huri].
    by apply (Huri "7" "tokenURI").
  - pose proof (getDetails_base_interface id
                  (Sample.node baseId true true (inr "SYM"))
                  baseId metaId "ERC721" "0xabc" None [] true eq_refl)
      as (_ & _ & Hgathered & _).
    destruct (Hgathered "SYM" "name" eq_refl eq_refl eq_refl) as [Hnone _].
    by apply Hnone.
  - pose proof (getDetails_base_interface id
                  (Sample.node baseId false true (inl "symbol() reverted"))
                  baseId metaId "ERC721" "0xabc" None [] false eq_refl)
      as (_ & _ & _ & _ & Hfails).
    destruct (Hfails eq_refl) as (Hsymbol & _).
    by apply (Hsymbol "symbol() reverted" "name").
Defined.

(** C6 as stated fails: the base-interface check reports [false], the
    metadata check [true], and the symbol lookup fails; [getDetails] rejects
    with the error of the symbol call, not with the error of message "This
    isn't a valid ERC721 contract". *)
Lemma getDetails_propagates_lookup_failure :
  let node := Sample.node baseId false true (inl "symbol() reverted") in
  let run := ERC721Standard.getDetails id node baseId metaId "ERC721"
               "0xabc" None [] in
  Remote.replyBool node [] (supports baseId) = inr false
  ∧ run.1 = Remote.Rejected (Remote.Propagated "symbol() reverted")
  ∧ run.1 ≠ Remote.Rejected (Remote.Thrown "This isn't a valid ERC721 contract")
  ∧ run.2 = [supports baseId; supports metaId;
             Remote.mkCall "0xabc" Remote.Symbol;
             Remote.mkCall "0xabc" Remote.Name].
Proof.
  split_and!; [reflexivity | reflexivity | discriminate | reflexivity].
Qed.

End Runs.

(** * Further properties of the preferences controller *)

(** ** The token list *)

Section TokenFacts.
Import Preferences.
Context {number : Type}.
Variable toChecksumAddress : string → string.

Local Abbreviation State := (PreferencesState number).
Local Abbreviation cs := toChecksumAddress.
Implicit Types (st : State) (a k : string) (new t : Token number)
  (toks : list (Token number)).

Lemma state_ext st1 st2 :
  featureFlags st1 = featureFlags st2 →
  identities st1 = identities st2 →
  lostIdentities st1 = lostIdentities st2 →
  selectedAddress st1 = selectedAddress st2 →
  tokens st1 = tokens st2 →
  st1 = st2.
Proof. destruct st1, st2. simpl. by intros -> -> -> -> ->. Qed.

Lemma filter_keeps_all {A} (P : A → Prop) `{!∀ x, Decision (P x)} (l : list A) :
  Forall P l → filter P l = l.
Proof.
  induction 1 as [|x l Hx _ IH]; [done|].
  by rewrite filter_cons, decide_True, IH.
Qed.

Lemma filter_replaceOrAppend a new toks :
  tokenAddress new = a →
  filter (λ t, tokenAddress t ≠ a) (replaceOrAppend a new toks)
  = filter (λ t, tokenAddress t ≠ a) toks.
Proof.
  intros Hnew. induction toks as [|t toks IH]; simpl.
  - by rewrite filter_cons, decide_False by tauto.
  - case_decide as Ht.
    + rewrite !filter_cons. by rewrite !decide_False by tauto.
    + by rewrite !filter_cons, !decide_True, IH.
Qed.

Lemma addresses_replaceOrAppend a new toks :
  tokenAddress new = a →
  tokenAddress <$> replaceOrAppend a new toks
  = if decide (a ∈ tokenAddress <$> toks) then tokenAddress <$> toks
    else (tokenAddress <$> toks) ++ [a].
Proof.
  intros Hnew. induction toks as [|t toks IH].
  - cbn [replaceOrAppend fmap list_fmap app].
    case_decide as Hin; [by apply elem_of_nil in Hin | by rewrite Hnew].
  - cbn [replaceOrAppend]. rewrite fmap_cons.
    destruct (decide (tokenAddress t = a)) as [Ht|Ht].
    + rewrite fmap_cons, Hnew, Ht. clear IH.
      destruct (decide (a ∈ a :: (tokenAddress <$> toks))) as [_|Hn];
        [done | destruct Hn; left].
    + rewrite fmap_cons, IH. clear IH.
      destruct (decide (a ∈ tokenAddress <$> toks)) as [Hin|Hout];
        destruct (decide (a ∈ tokenAddress t :: (tokenAddress <$> toks)))
          as [Hin'|Hout']; try done.
      * destruct Hout'. by right.
      * apply elem_of_cons in Hin' as [?|?]; [congruence | done].
Qed.

(** X1: [removeToken] drops every token of the checksummed address and keeps the
    others in their order; without such a token the state is unchanged, and
    removing twice is removing once. *)
Theorem removeToken_drops_address st a :
  let st' := removeToken cs st a in
  (∀ t, t ∈ tokens st' ↔ t ∈ tokens st ∧ tokenAddress t ≠ cs a)
  ∧ tokens st' `sublist_of` tokens st
  ∧ (Forall (λ t, tokenAddress t ≠ cs a) (tokens st) → st' = st)
  ∧ (∀ a', cs a' = cs a → removeToken cs st' a' = st')
  ∧ (featureFlags st' = featureFlags st
     ∧ identities st' = identities st
     ∧ lostIdentities st' = lostIdentities st
     ∧ selectedAddress st' = selectedAddress st).
Proof.
  intros st'. split_and!; try done.
  - intros t. unfold st'. simpl. by rewrite list_elem_of_filter, (comm and).
  - apply sublist_filter.
  - intros Hnone. apply state_ext; try done. simpl. by apply filter_keeps_all.
  - intros a' Ha'. apply state_ext; try done. simpl. rewrite Ha'.
    apply filter_keeps_all, Forall_forall. by intros t [? _]%list_elem_of_filter.
Qed.

(** X2: Removing a token that was just added, under any spelling of the same
    checksummed address, leaves the tokens [removeToken] alone would leave;
    when no token had that address the state is again the one before the
    addition. *)
Theorem removeToken_undoes_addToken st a a' sym dec :
  cs a' = cs a →
  let added := (addToken cs st a sym dec).1 in
  removeToken cs added a' = removeToken cs st a
  ∧ (Forall (λ t, tokenAddress t ≠ cs a) (tokens st) →
     removeToken cs added a' = st).
Proof.
  intros Ha' added.
  assert (Heq : removeToken cs added a' = removeToken cs st a).
  { apply state_ext; try done. simpl. rewrite Ha'.
    change (filter (λ t, tokenAddress t ≠ cs a) (addToken cs st a sym dec).2
            = filter (λ t, tokenAddress t ≠ cs a) (tokens st)).
    rewrite addToken_replaceOrAppend. by apply filter_replaceOrAppend. }
  split; [done|]. intros Hnone. rewrite Heq.
  apply state_ext; try done. simpl. by apply filter_keeps_all.
Qed.

(** X3: [addToken] leaves the sequence of token addresses as it is when the
    checksummed address occurs in it, and appends the address otherwise; so
    token addresses that are pairwise distinct stay so, under [addToken] and
    under [removeToken], and they are in every reachable state. *)
Theorem token_addresses_stay_distinct st :
  (∀ a sym dec,
     tokenAddress <$> (addToken cs st a sym dec).2
     = if decide (cs a ∈ tokenAddress <$> tokens st)
       then tokenAddress <$> tokens st
       else (tokenAddress <$> tokens st) ++ [cs a])
  ∧ (NoDup (tokenAddress <$> tokens st) →
     (∀ a sym dec, NoDup (tokenAddress <$> tokens (addToken cs st a sym dec).1))
     ∧ (∀ a, NoDup (tokenAddress <$> tokens (removeToken cs st a))))
  ∧ (reachable cs st → NoDup (tokenAddress <$> tokens st)).
Proof.
  assert (Hadd : ∀ st a sym dec,
     tokenAddress <$> (addToken cs st a sym dec).2
     = if decide (cs a ∈ tokenAddress <$> tokens st)
       then tokenAddress <$> tokens st
       else (tokenAddress <$> tokens st) ++ [cs a]).
  { intros st0 a sym dec. rewrite addToken_replaceOrAppend.
    by apply addresses_replaceOrAppend. }
  assert (Hkeep : ∀ st, NoDup (tokenAddress <$> tokens st) →
     (∀ a sym dec, NoDup (tokenAddress <$> tokens (addToken cs st a sym dec).1))
     ∧ (∀ a, NoDup (tokenAddress <$> tokens (removeToken cs st a)))).
  { intros st0 Hnd. split.
    - intros a sym dec.
      change (NoDup (tokenAddress <$> (addToken cs st0 a sym dec).2)).
      rewrite Hadd. case_decide as Hin; [done|].
      apply NoDup_app. split_and!; [done | | apply NoDup_singleton].
      by intros x Hx ->%list_elem_of_singleton.
    - intros a. simpl. eapply sublist_NoDup; [exact Hnd|].
      apply fmap_sublist, sublist_filter. }
  split_and!; [apply Hadd | apply Hkeep |].
  induction 1 as [|st l _ IH|st a sym dec _ IH|st a _ IH|st a _ IH
                  |st a label _ IH|st f b _ IH|st l _ IH|st l _ IH];
    try exact IH.
  - apply NoDup_nil_2.
  - by apply Hkeep.
  - unfold removeIdentity.
    destruct (JsObject.get (identities st) (cs a)); [|done].
    simpl. by case_decide.
  - by apply Hkeep.
  - unfold syncIdentities. destruct (foldl _ _ _) as [ids nl]. simpl.
    destruct (selectedAddress st); [case_decide|]; done.
Qed.

End TokenFacts.

(** ** More on objects as maps *)

Section JsObjectMore.
Import JsObject.
Context {V : Type}.
Implicit Types (o : jsobject V) (k : string) (v : V).

Lemma set_set o k v v' : set (set o k v) k v' = set o k v'.
Proof.
  induction o as [|[k0 v0] o IH]; simpl.
  - by rewrite decide_True.
  - case_decide; simpl; [by rewrite decide_True | by rewrite decide_False, IH].
Qed.

Lemma set_same o k v : get o k = Some v → set o k v = o.
Proof.
  induction o as [|[k0 v0] o IH]; simpl; [done|].
  case_decide; subst; [by intros [= ->] | intros Hget; by rewrite IH].
Qed.

Lemma elem_of_keys_assign_all (dst src : jsobject V) k :
  k ∈ keys (foldl (λ (acc : jsobject V) (kv : string * V), set acc kv.1 kv.2)
                  dst src)
  ↔ k ∈ keys dst ∨ k ∈ keys src.
Proof.
  revert dst. induction src as [|[k0 v0] src IH]; intros dst; simpl.
  - rewrite elem_of_nil. tauto.
  - rewrite IH, elem_of_keys_set, elem_of_cons. tauto.
Qed.

(** Two objects with the same property names in the same order and the same
    values are the same object. *)
Lemma jsobject_ext o1 o2 :
  wf o1 → keys o1 = keys o2 → (∀ k, get o1 k = get o2 k) → o1 = o2.
Proof.
  unfold wf, keys. revert o2.
  induction o1 as [|[k1 v1] o1 IH]; intros [|[k2 v2] o2] Hwf Hkeys Hget;
    simplify_eq/=; [done|].
  apply NoDup_cons in Hwf as [Hk2 Hwf].
  pose proof (Hget k2) as Hhead. rewrite !decide_True in Hhead by done.
  simplify_eq. f_equal. apply IH; [done | done |].
  intros k. specialize (Hget k). destruct (decide (k2 = k)) as [->|Hne].
  - assert (Hnone : get o1 k = None) by by apply get_None.
    rewrite Hnone. symmetry. apply get_None. unfold keys.
    by match goal with H : o1.*1 = o2.*1 |- _ => rewrite <- H end.
  - done.
Qed.

Lemma del_snoc o k v : k ∉ keys o → del (o ++ [(k, v)]) k = o.
Proof.
  intros Hk. rewrite del_app, del_absent by done.
  unfold del. rewrite filter_cons. simpl.
  rewrite decide_False by tauto. by rewrite app_nil_r.
Qed.

End JsObjectMore.

(** ** The order of property names *)

Section JsObjectOrder.
Import JsObject.
Context {V : Type}.
Implicit Types (o target src : jsobject V) (k : string) (v : V) (n m : N).

Lemma arrayIndex_spelling k n : arrayIndex k = Some n → pretty n = k.
Proof.
  unfold arrayIndex. destruct (digitsValue 0 k) as [n'|]; [|done].
  case_decide as Hn; [|done]. intros [= <-]. by destruct Hn.
Qed.

Lemma arrayIndex_inj k1 k2 n :
  arrayIndex k1 = Some n → arrayIndex k2 = Some n → k1 = k2.
Proof. intros <-%arrayIndex_spelling <-%arrayIndex_spelling. done. Qed.

(** Where [insertIndex] puts the new property. *)
Lemma insertIndex_split n k v o :
  ∃ before after,
    o = before ++ after
    ∧ insertIndex n k v o = before ++ (k, v) :: after
    ∧ Forall (λ kv, ∃ m, arrayIndex kv.1 = Some m ∧ (m < n)%N) before
    ∧ match after with
      | [] => True
      | kv :: _ => ∀ m, arrayIndex kv.1 = Some m → ¬ (m < n)%N
      end.
Proof.
  induction o as [|[k' v'] o IH]; simpl.
  - by exists [], [].
  - destruct (arrayIndex k') as [m|] eqn:Hk'.
    + destruct (decide (m < n)%N) as [Hlt|Hge].
      * destruct IH as (before & after & -> & -> & Hbefore & Hafter).
        exists ((k', v') :: before), after. split_and!; try done.
        apply Forall_cons. split; [|done]. simpl. eauto.
      * exists [], ((k', v') :: o). split_and!; try done. simpl.
        intros m' Hm'. by simplify_eq.
    + exists [], ((k', v') :: o). split_and!; try done. simpl.
      intros m' Hm'. by simplify_eq.
Qed.

Lemma insertIndex_after_smaller n k v o :
  Forall (λ kv, ∃ m, arrayIndex kv.1 = Some m ∧ (m < n)%N) o →
  insertIndex n k v o = o ++ [(k, v)].
Proof.
  induction 1 as [|[k' v'] o (m & Hm & Hlt) _ IH]; simpl; [done|].
  simpl in Hm. by rewrite Hm, decide_True, IH.
Qed.

Lemma get_put_eq o k v : get (put o k v) k = Some v.
Proof.
  unfold put. destruct (get o k) as [v0|] eqn:Hget; [apply get_set_eq|].
  destruct (arrayIndex k) as [n|].
  - destruct (insertIndex_split n k v o) as (before & after & -> & -> & _).
    rewrite get_app in Hget |- *.
    destruct (get before k); [done|]. simpl. by rewrite decide_True.
  - rewrite get_app, Hget. simpl. by rewrite decide_True.
Qed.

Lemma get_put_ne o k k' v : k ≠ k' → get (put o k v) k' = get o k'.
Proof.
  intros Hne. unfold put. destruct (get o k) as [v0|]; [by apply get_set_ne|].
  destruct (arrayIndex k) as [n|].
  - destruct (insertIndex_split n k v o) as (before & after & -> & -> & _).
    rewrite !get_app. destruct (get before k'); [done|]. simpl.
    by rewrite decide_False.
  - rewrite get_app. destruct (get o k'); [done|]. simpl. by rewrite decide_False.
Qed.

Lemma keys_put_present o k v : k ∈ keys o → keys (put o k v) = keys o.
Proof.
  intros Hk. unfold put. apply get_is_Some in Hk as Hsome.
  destruct Hsome as [v0 Hv0]. rewrite Hv0. apply keys_set_present. by exists v0.
Qed.

Lemma put_new_name o k v :
  k ∉ keys o → arrayIndex k = None → put o k v = o ++ [(k, v)].
Proof. intros Hk%get_None Hname. unfold put. by rewrite Hk, Hname. Qed.

Lemma elem_of_keys_put o k v k' : k' ∈ keys (put o k v) ↔ k' = k ∨ k' ∈ keys o.
Proof.
  unfold put. destruct (get o k) as [v0|] eqn:Hget; [apply elem_of_keys_set|].
  destruct (arrayIndex k) as [n|].
  - destruct (insertIndex_split n k v o) as (before & after & -> & -> & _).
    rewrite !keys_app. simpl. rewrite !elem_of_app, elem_of_cons. tauto.
  - rewrite keys_app, elem_of_app. simpl. rewrite list_elem_of_singleton. tauto.
Qed.

Lemma wf_put o k v : wf o → wf (put o k v).
Proof.
  intros Hwf. unfold put. destruct (get o k) as [v0|] eqn:Hget; [by apply wf_set|].
  apply get_None in Hget. destruct (arrayIndex k) as [n|].
  - destruct (insertIndex_split n k v o) as (before & after & -> & -> & _).
    unfold wf in *. rewrite keys_app in *. simpl.
    rewrite elem_of_app in Hget.
    apply NoDup_app in Hwf as (Hb & Hsep & Ha).
    apply NoDup_app. split_and!; [done | |].
    + intros x Hx [->|Hx']%elem_of_cons; [tauto | by apply (Hsep x)].
    + apply NoDup_cons. split; [tauto | done].
  - unfold wf in *. rewrite keys_app. simpl.
    apply NoDup_app. split_and!; [done | | apply NoDup_singleton].
    by intros x Hx ->%list_elem_of_singleton.
Qed.

Lemma precedes_name x k : arrayIndex k = None → precedes x k.
Proof. intros Hk. unfold precedes. rewrite Hk. by destruct (arrayIndex x). Qed.

(** In an ordered object, what follows a property that is no smaller index
    than [n] are larger indices and other names. *)
Lemma ordered_rest_larger n k o :
  ordered o → arrayIndex k = Some n → k ∉ keys o →
  match o with
  | [] => True
  | kv :: _ => ∀ m, arrayIndex kv.1 = Some m → ¬ (m < n)%N
  end →
  Forall (λ kv, ∀ m, arrayIndex kv.1 = Some m → (n < m)%N) o.
Proof.
  destruct o as [|[k0 v0] o]; [intros; apply Forall_nil_2|].
  unfold ordered. simpl. intros [Hall _]%StronglySorted_cons Hk Hnew Hhead.
  apply not_elem_of_cons in Hnew as [Hne Hnew].
  assert (Hk0 : ∀ m, arrayIndex k0 = Some m → (n < m)%N).
  { intros m Hm. specialize (Hhead m Hm).
    destruct (decide (m = n)) as [->|?]; [|lia].
    destruct Hne. by apply (arrayIndex_inj _ _ n). }
  apply Forall_cons. split; [done|].
  apply Forall_forall. intros [k1 v1] Hin m Hm. simpl in *.
  rewrite Forall_forall in Hall.
  assert (Hprec : precedes k0 k1).
  { apply Hall. apply list_elem_of_fmap. by exists (k1, v1). }
  unfold precedes in Hprec. rewrite Hm in Hprec.
  destruct (arrayIndex k0) as [m0|] eqn:H0; [|done].
  specialize (Hk0 m0 eq_refl). lia.
Qed.

(** A new array index goes after the smaller indices and before the larger
    ones and the other names. *)
Lemma put_new_index o k v n :
  ordered o → k ∉ keys o → arrayIndex k = Some n →
  ∃ before after,
    o = before ++ after
    ∧ put o k v = before ++ (k, v) :: after
    ∧ Forall (λ kv, ∃ m, arrayIndex kv.1 = Some m ∧ (m < n)%N) before
    ∧ Forall (λ kv, ∀ m, arrayIndex kv.1 = Some m → (n < m)%N) after.
Proof.
  intros Hord Hnew Hk. unfold put. apply get_None in Hnew as Hget.
  rewrite Hget, Hk.
  destruct (insertIndex_split n k v o) as (before & after & -> & -> & Hb & Ha).
  exists before, after. split_and!; try done.
  apply (ordered_rest_larger n k); try done.
  - unfold ordered in *. rewrite keys_app in Hord.
    by apply StronglySorted_app_1_r in Hord.
  - rewrite keys_app, elem_of_app in Hnew. tauto.
Qed.

Lemma ordered_put o k v : ordered o → ordered (put o k v).
Proof.
  intros Hord. destruct (decide (k ∈ keys o)) as [Hin|Hnew].
  - unfold ordered. by rewrite keys_put_present.
  - destruct (arrayIndex k) as [n|] eqn:Hk.
    + destruct (put_new_index o k v n Hord Hnew Hk)
        as (before & after & -> & -> & Hb & Ha).
      unfold ordered in *. rewrite keys_app in *. simpl.
      apply StronglySorted_app in Hord as (Hcross & Hsb & Hsa).
      rewrite Forall_forall in Hb. rewrite Forall_forall in Ha.
      apply StronglySorted_app_2; [|done|].
      * intros x1 x2 ([k1 v1] & -> & Hin1)%list_elem_of_fmap
          [->|Hx2]%elem_of_cons; [|by apply Hcross; [apply list_elem_of_fmap; eexists|]].
        destruct (Hb _ Hin1) as (m & Hm & Hlt). simpl in *.
        unfold precedes. by rewrite Hm, Hk.
      * apply StronglySorted_cons. split; [|done].
        apply Forall_forall. intros x ([k1 v1] & -> & Hin1)%list_elem_of_fmap.
        simpl. unfold precedes. rewrite Hk.
        destruct (arrayIndex k1) as [m|] eqn:Hm; [|done].
        by apply (Ha _ Hin1).
    + rewrite put_new_name by done. unfold ordered in *. rewrite keys_app.
      apply StronglySorted_app_2; [|done|].
      * intros x1 x2 _ ->%list_elem_of_singleton. by apply precedes_name.
      * simpl. apply StronglySorted_cons. split; [apply Forall_nil_2 | constructor].
Qed.

Lemma set_insertIndex n k v v' o :
  k ∉ keys o → set (insertIndex n k v o) k v' = insertIndex n k v' o.
Proof.
  induction o as [|[k0 v0] o IH]; simpl.
  - intros _. by rewrite decide_True.
  - intros [Hne Hk]%not_elem_of_cons.
    destruct (arrayIndex k0) as [m|]; [destruct (decide (m < n)%N)|]; simpl.
    + rewrite decide_False by done. by rewrite IH.
    + by rewrite decide_True.
    + by rewrite decide_True.
Qed.

Lemma set_snoc o k v v' : k ∉ keys o → set (o ++ [(k, v)]) k v' = o ++ [(k, v')].
Proof.
  induction o as [|[k0 v0] o IH]; simpl.
  - intros _. by rewrite decide_True.
  - intros [Hne Hk]%not_elem_of_cons. rewrite decide_False by done. by rewrite IH.
Qed.

(** Assigning twice to one name is assigning the second value. *)
Lemma put_put o k v v' : put (put o k v) k v' = put o k v'.
Proof.
  unfold put at 1. rewrite get_put_eq. unfold put.
  destruct (get o k) as [v0|] eqn:Hget; [apply set_set|].
  apply get_None in Hget. destruct (arrayIndex k) as [n|].
  - by apply set_insertIndex.
  - by apply set_snoc.
Qed.

(** Assigning to a property the value it has changes nothing. *)
Lemma put_same o k v : get o k = Some v → put o k v = o.
Proof. intros Hget. unfold put. rewrite Hget. by apply set_same. Qed.

(** *** Spreading *)

Lemma get_spreadInto target src k :
  wf src →
  get (spreadInto target src) k =
    match get src k return option V with
    | Some v => Some v
    | None => get target k
    end.
Proof.
  unfold spreadInto, wf, keys. revert target.
  induction src as [|[k0 v0] src IH]; intros target Hnd; simpl; [done|].
  simpl in Hnd. apply NoDup_cons in Hnd as [Hk0 Hnd].
  rewrite IH by done. destruct (decide (k0 = k)) as [->|Hne].
  - apply get_None in Hk0. rewrite Hk0. apply get_put_eq.
  - by rewrite get_put_ne.
Qed.

Lemma elem_of_keys_spreadInto target src k :
  k ∈ keys (spreadInto target src) ↔ k ∈ keys target ∨ k ∈ keys src.
Proof.
  unfold spreadInto. revert target.
  induction src as [|[k0 v0] src IH]; intros target; simpl.
  - rewrite elem_of_nil. tauto.
  - rewrite IH, elem_of_keys_put, elem_of_cons. tauto.
Qed.

Lemma wf_spreadInto target src : wf target → wf (spreadInto target src).
Proof.
  unfold spreadInto. revert target.
  induction src as [|[k0 v0] src IH]; intros target Hwf; simpl; [done|].
  by apply IH, wf_put.
Qed.

Lemma ordered_spreadInto target src :
  ordered target → ordered (spreadInto target src).
Proof.
  unfold spreadInto. revert target.
  induction src as [|[k0 v0] src IH]; intros target Hord; simpl; [done|].
  by apply IH, ordered_put.
Qed.

(** Copying an object into another, property by property, appends it when
    the two together are in order and share no name. *)
Lemma spreadInto_app target src :
  wf (target ++ src) → ordered (target ++ src) →
  spreadInto target src = target ++ src.
Proof.
  unfold spreadInto. revert target.
  induction src as [|[k v] src IH]; intros target Hwf Hord; simpl.
  - by rewrite app_nil_r.
  - assert (Hput : put target k v = target ++ [(k, v)]).
    { assert (Hnew : k ∉ keys target).
      { unfold wf in Hwf. rewrite keys_app in Hwf. simpl in Hwf.
        apply NoDup_app in Hwf as (_ & Hsep & _).
        intros Hin. apply (Hsep k Hin). left. }
      destruct (arrayIndex k) as [n|] eqn:Hk; [|by apply put_new_name].
      unfold put. apply get_None in Hnew. rewrite Hnew, Hk.
      apply insertIndex_after_smaller, Forall_forall.
      intros [k1 v1] Hin1. simpl.
      assert (Hprec : precedes k1 k).
      { unfold ordered in Hord. rewrite keys_app in Hord. simpl in Hord.
        apply (StronglySorted_app_1_elem_of _ _ _ k1 k Hord); [|left].
        apply list_elem_of_fmap. by exists (k1, v1). }
      unfold precedes in Hprec. rewrite Hk in Hprec.
      destruct (arrayIndex k1) as [m|]; [eauto | done]. }
    rewrite Hput. rewrite IH; rewrite <- app_assoc; done.
Qed.

Lemma spreadInto_nil o : wf o → ordered o → spreadInto [] o = o.
Proof. intros Hwf Hord. by apply (spreadInto_app []). Qed.

End JsObjectOrder.

(** ** Identities, one operation at a time *)

Section IdentityFacts.
Import Preferences.
Context {number : Type}.
Variable toChecksumAddress : string → string.

Local Abbreviation State := (PreferencesState number).
Local Abbreviation cs := toChecksumAddress.
Implicit Types (st : State) (ids lost : jsobject ContactEntry)
  (l : list string) (a k : string).

Lemma addIdentities_fold_present ids l :
  (∀ a, a ∈ l → cs a ∈ JsObject.keys ids) → foldl (addIdentity cs) ids l = ids.
Proof.
  induction l as [|a l IH]; intros Hl; simpl; [done|].
  rewrite addIdentity_unfold, decide_True by (apply Hl; left).
  apply IH. intros b Hb. apply Hl. by right.
Qed.

(** X4: [addIdentities] with addresses that all have an identity changes nothing;
    in particular running it again on the same list, or on the empty list,
    gives the same state, and one call on a concatenation is two calls in a
    row. *)
Theorem addIdentities_absorbs_known_addresses st l :
  (∀ l', (∀ a, a ∈ l' → cs a ∈ JsObject.keys (identities st)) →
         addIdentities cs st l' = st)
  ∧ addIdentities cs (addIdentities cs st l) l = addIdentities cs st l
  ∧ (∀ l', addIdentities cs st (l ++ l')
           = addIdentities cs (addIdentities cs st l) l')
  ∧ (∀ k, k ∈ JsObject.keys (identities (addIdentities cs st l))
          ↔ k ∈ JsObject.keys (identities st) ∨ k ∈ cs <$> l).
Proof.
  assert (Hknown : ∀ st l', (∀ a, a ∈ l' → cs a ∈ JsObject.keys (identities st)) →
                            addIdentities cs st l' = st).
  { intros st0 l' Hl'. apply state_ext; try done. simpl.
    by apply addIdentities_fold_present. }
  split_and!.
  - apply Hknown.
  - apply Hknown. intros a Ha. simpl.
    rewrite elem_of_keys_addIdentities_fold. right.
    apply list_elem_of_fmap. by exists a.
  - intros l'. apply state_ext; try done. simpl. apply foldl_app.
  - intros k. simpl. apply elem_of_keys_addIdentities_fold.
Qed.

Lemma removeIdentity_identities st a :
  identities (removeIdentity cs st a) = JsObject.del (identities st) (cs a).
Proof.
  unfold removeIdentity.
  destruct (JsObject.get (identities st) (cs a)) eqn:Hget.
  - simpl. by case_decide.
  - apply get_None in Hget. by rewrite del_absent.
Qed.

Lemma removeIdentity_selectedAddress st a :
  selectedAddress (removeIdentity cs st a)
  = if decide (cs a ∈ JsObject.keys (identities st)
               ∧ selectedAddress st = Some (cs a))
    then head (JsObject.keys (JsObject.del (identities st) (cs a)))
    else selectedAddress st.
Proof.
  unfold removeIdentity.
  destruct (JsObject.get (identities st) (cs a)) eqn:Hget.
  - assert (cs a ∈ JsObject.keys (identities st)) by (apply get_is_Some; eauto).
    simpl. destruct (decide (Some (cs a) = selectedAddress st)) as [Hs|Hs]; simpl.
    + by rewrite decide_True.
    + rewrite decide_False; [done|]. intros [_ ?]. congruence.
  - apply get_None in Hget. rewrite decide_False; [done | tauto].
Qed.

Lemma removeIdentity_frame st a :
  lostIdentities (removeIdentity cs st a) = lostIdentities st
  ∧ featureFlags (removeIdentity cs st a) = featureFlags st
  ∧ tokens (removeIdentity cs st a) = tokens st.
Proof.
  unfold removeIdentity.
  destruct (JsObject.get (identities st) (cs a)); [|done].
  simpl. by case_decide.
Qed.

(** X5: [removeIdentity] of an address without identity leaves the state as it
    is.  Otherwise the key is gone, the other identities keep their records
    and their order, nothing is recorded in [lostIdentities], and the
    selected address changes only if it was the removed one, to the first
    remaining key.  Removing again changes nothing. *)
Theorem removeIdentity_removes_one_key st a :
  let st' := removeIdentity cs st a in
  (cs a ∉ JsObject.keys (identities st) → st' = st)
  ∧ (cs a ∉ JsObject.keys (identities st'))
  ∧ (∀ k, k ≠ cs a →
       JsObject.get (identities st') k = JsObject.get (identities st) k)
  ∧ JsObject.keys (identities st')
    = filter (λ k, k ≠ cs a) (JsObject.keys (identities st))
  ∧ (selectedAddress st ≠ Some (cs a) → selectedAddress st' = selectedAddress st)
  ∧ (selectedAddress st = Some (cs a) → cs a ∈ JsObject.keys (identities st) →
     selectedAddress st' = head (JsObject.keys (identities st')))
  ∧ removeIdentity cs st' a = st'
  ∧ (lostIdentities st' = lostIdentities st
     ∧ featureFlags st' = featureFlags st
     ∧ tokens st' = tokens st).
Proof.
  intros st'. unfold st'.
  pose proof (removeIdentity_identities st a) as Hids.
  pose proof (removeIdentity_selectedAddress st a) as Hsel.
  pose proof (removeIdentity_frame st a) as (Hlost & Hff & Htoks).
  assert (Habsent : ∀ s : State, cs a ∉ JsObject.keys (identities s) →
                                 removeIdentity cs s a = s).
  { intros s Hs%get_None. unfold removeIdentity. by rewrite Hs. }
  split_and!; try done.
  - apply Habsent.
  - rewrite Hids, elem_of_keys_del. tauto.
  - intros k Hk. rewrite Hids. by apply get_del_ne.
  - rewrite Hids. apply keys_del.
  - intros Hne. rewrite Hsel. rewrite decide_False; [done | tauto].
  - intros Hs Hin. rewrite Hsel, Hids. by rewrite decide_True.
  - apply Habsent. rewrite Hids, elem_of_keys_del. tauto.
Qed.

(** X6: Adding one address that has no identity and removing it again gives the
    identities there were; the whole state is the one before when that
    address was not the selected one. *)
Theorem removeIdentity_undoes_addIdentities st a :
  cs a ∉ JsObject.keys (identities st) →
  identities (removeIdentity cs (addIdentities cs st [a]) a) = identities st
  ∧ (selectedAddress st ≠ Some (cs a) →
     removeIdentity cs (addIdentities cs st [a]) a = st).
Proof.
  intros Hfresh.
  assert (Hids : identities (removeIdentity cs (addIdentities cs st [a]) a)
                 = identities st).
  { rewrite removeIdentity_identities. simpl.
    rewrite addIdentity_unfold, decide_False by done. by apply del_snoc. }
  split; [done|]. intros Hsel.
  pose proof (removeIdentity_frame (addIdentities cs st [a]) a)
    as (Hlost & Hff & Htoks).
  apply state_ext; try done.
  rewrite removeIdentity_selectedAddress. simpl.
  rewrite decide_False; [done | tauto].
Qed.

Lemma setAccountLabel_identities st a label :
  identities (setAccountLabel cs st a label)
  = JsObject.set (identities st) (cs a)
      {| address := JsObject.get (identities st) (cs a) ≫= address;
         name := Some label |}.
Proof.
  unfold setAccountLabel. simpl.
  rewrite get_set_eq, set_set. by destruct (JsObject.get (identities st) (cs a)).
Qed.

(** X7: [setAccountLabel] stores the label as the name under the checksummed
    address and keeps the [address] field that was there, if any; the other
    identities, the order of the keys and the other fields of the state are
    untouched, a key without identity going last.  Of two labels set in a
    row for one address, the second is the one that stays. *)
Theorem setAccountLabel_sets_name_only st a label :
  let st' := setAccountLabel cs st a label in
  JsObject.get (identities st') (cs a)
  = Some {| address := JsObject.get (identities st) (cs a) ≫= address;
            name := Some label |}
  ∧ (∀ k, k ≠ cs a →
       JsObject.get (identities st') k = JsObject.get (identities st) k)
  ∧ JsObject.keys (identities st')
    = (if decide (cs a ∈ JsObject.keys (identities st))
       then JsObject.keys (identities st)
       else JsObject.keys (identities st) ++ [cs a])
  ∧ (∀ a' label', cs a' = cs a →
       setAccountLabel cs st' a' label' = setAccountLabel cs st a label')
  ∧ (featureFlags st' = featureFlags st
     ∧ lostIdentities st' = lostIdentities st
     ∧ selectedAddress st' = selectedAddress st
     ∧ tokens st' = tokens st).
Proof.
  intros st'. unfold st'. split_and!; try done.
  - rewrite setAccountLabel_identities. apply get_set_eq.
  - intros k Hk. rewrite setAccountLabel_identities. by apply get_set_ne.
  - rewrite setAccountLabel_identities. apply keys_set.
  - intros a' label' Ha'. apply state_ext; try done.
    rewrite !setAccountLabel_identities, Ha'.
    by rewrite get_set_eq, set_set.
Qed.

(** X8: No method removes a key from [lostIdentities], and only
    [syncIdentities] changes that object at all: what it adds are keys of
    identities that are missing from its list. *)
Theorem lostIdentities_only_grow st :
  (∀ l, lostIdentities (addIdentities cs st l) = lostIdentities st)
  ∧ (∀ a sym dec, lostIdentities (addToken cs st a sym dec).1 = lostIdentities st)
  ∧ (∀ a, lostIdentities (removeIdentity cs st a) = lostIdentities st)
  ∧ (∀ a, lostIdentities (removeToken cs st a) = lostIdentities st)
  ∧ (∀ a label, lostIdentities (setAccountLabel cs st a label) = lostIdentities st)
  ∧ (∀ f b, lostIdentities (setFeatureFlag st f b) = lostIdentities st)
  ∧ (∀ l, lostIdentities (updateIdentities cs st l) = lostIdentities st)
  ∧ (∀ l k, k ∈ JsObject.keys (lostIdentities st) →
            k ∈ JsObject.keys (lostIdentities (syncIdentities cs st l).1))
  ∧ (∀ l k, JsObject.wf (identities st) →
       (k ∈ JsObject.keys (lostIdentities (syncIdentities cs st l).1)
        ↔ k ∈ JsObject.keys (lostIdentities st)
          ∨ (k ∈ JsObject.keys (identities st) ∧ k ∉ cs <$> l))).
Proof.
  split_and!; try done.
  - intros a. apply removeIdentity_frame.
  - intros l k Hk. unfold syncIdentities.
    destruct (foldl _ _ _) as [ids nl].
    assert (Hlost : k ∈ JsObject.keys
              (if decide (0 < length (JsObject.keys nl))
               then foldl (λ (acc : jsobject ContactEntry) kv,
                             JsObject.set acc kv.1 kv.2) (lostIdentities st) nl
               else lostIdentities st)).
    { case_decide; [|done]. apply elem_of_keys_assign_all. by left. }
    simpl. destruct (selectedAddress st) as [s|];
      [destruct (decide (s ∈ cs <$> l))|]; exact Hlost.
  - intros l k Hwf.
    destruct (syncIdentities_unfold cs st l Hwf) as (_ & -> & _).
    rewrite elem_of_keys_assign_all.
    pose proof (keys_filter (λ k, k ∉ cs <$> l) (identities st)) as Hgone.
    simpl in Hgone. rewrite Hgone, list_elem_of_filter. tauto.
Qed.

Lemma featureFlags_setFeatureFlag st (f : string) (b : bool) :
  featureFlags (setFeatureFlag st f b)
  = JsObject.put (JsObject.spreadInto [] (featureFlags st)) f b.
Proof. done. Qed.

Lemma spread_fresh_wf_ordered (flags : jsobject bool) :
  JsObject.wf (JsObject.spreadInto [] flags)
  ∧ JsObject.ordered (JsObject.spreadInto [] flags).
Proof.
  split.
  - apply wf_spreadInto, NoDup_nil_2.
  - apply ordered_spreadInto. constructor.
Qed.

(** X9: [setFeatureFlag] writes one flag into a fresh copy of the flags: the
    flag reads back, the other flags keep their values, and the flag names
    are the old ones and the written one, listed as an object lists its
    keys (array indices ascending, then the other names).  On flags that
    are listed that way, a flag that exists keeps its place, a new name
    that is no array index goes last, a new array index goes after the
    smaller indices and before everything else, and writing the value a
    flag has changes nothing.  The later of two writes to one flag stays,
    writes to different flags give the same flag values in either order,
    and no other field of the state is touched. *)
Theorem setFeatureFlag_merges_one_flag st (f : string) (b : bool) :
  JsObject.wf (featureFlags st) →
  let st' := setFeatureFlag st f b in
  JsObject.get (featureFlags st') f = Some b
  ∧ (∀ g, g ≠ f →
       JsObject.get (featureFlags st') g = JsObject.get (featureFlags st) g)
  ∧ (∀ g, g ∈ JsObject.keys (featureFlags st')
          ↔ g = f ∨ g ∈ JsObject.keys (featureFlags st))
  ∧ JsObject.wf (featureFlags st')
  ∧ JsObject.ordered (featureFlags st')
  ∧ (JsObject.ordered (featureFlags st) →
     (f ∈ JsObject.keys (featureFlags st) →
      JsObject.keys (featureFlags st') = JsObject.keys (featureFlags st))
     ∧ (f ∉ JsObject.keys (featureFlags st) → JsObject.arrayIndex f = None →
        JsObject.keys (featureFlags st') = JsObject.keys (featureFlags st) ++ [f])
     ∧ (∀ n, f ∉ JsObject.keys (featureFlags st) →
          JsObject.arrayIndex f = Some n →
          ∃ before after,
            JsObject.keys (featureFlags st) = before ++ after
            ∧ JsObject.keys (featureFlags st') = before ++ f :: after
            ∧ (∀ k, k ∈ before →
                 ∃ m, JsObject.arrayIndex k = Some m ∧ (m < n)%N)
            ∧ (∀ k m, k ∈ after → JsObject.arrayIndex k = Some m → (n < m)%N))
     ∧ (JsObject.get (featureFlags st) f = Some b → st' = st))
  ∧ (∀ b', setFeatureFlag st' f b' = setFeatureFlag st f b')
  ∧ (∀ g c h, g ≠ f →
       JsObject.get (featureFlags (setFeatureFlag st' g c)) h
       = JsObject.get (featureFlags (setFeatureFlag (setFeatureFlag st g c) f b)) h)
  ∧ (identities st' = identities st
     ∧ lostIdentities st' = lostIdentities st
     ∧ selectedAddress st' = selectedAddress st
     ∧ tokens st' = tokens st).
Proof.
  clear toChecksumAddress.
  intros Hwf st'. unfold st'.
  destruct (spread_fresh_wf_ordered (featureFlags st)) as [Hwf0 Hord0].
  assert (Hsame : ∀ o : jsobject bool, JsObject.wf o → JsObject.ordered o →
                   JsObject.spreadInto [] o = o)
    by (intros; by apply spreadInto_nil).
  split_and!; try done.
  - rewrite featureFlags_setFeatureFlag. apply get_put_eq.
  - intros g Hg. rewrite featureFlags_setFeatureFlag, get_put_ne by done.
    rewrite get_spreadInto by done. by destruct (JsObject.get (featureFlags st) g).
  - intros g. rewrite featureFlags_setFeatureFlag, elem_of_keys_put,
      elem_of_keys_spreadInto. simpl. rewrite elem_of_nil. tauto.
  - rewrite featureFlags_setFeatureFlag. by apply wf_put.
  - rewrite featureFlags_setFeatureFlag. by apply ordered_put.
  - intros Hord. rewrite featureFlags_setFeatureFlag, Hsame by done.
    split_and!.
    + apply keys_put_present.
    + intros Hnew Hname. rewrite put_new_name by done. apply keys_app.
    + intros n Hnew Hindex.
      destruct (put_new_index (featureFlags st) f b n Hord Hnew Hindex)
        as (before & after & Hflags & -> & Hb & Ha).
      exists (JsObject.keys before), (JsObject.keys after).
      rewrite Hflags, !keys_app. split_and!; try done.
      * intros k ([k1 v1] & -> & Hin)%list_elem_of_fmap.
        by apply (proj1 (Forall_forall _ _) Hb (k1, v1)).
      * intros k m ([k1 v1] & -> & Hin)%list_elem_of_fmap.
        by apply (proj1 (Forall_forall _ _) Ha (k1, v1)).
    + intros Hget. apply state_ext; try done.
      rewrite featureFlags_setFeatureFlag, Hsame by done. by apply put_same.
  - intros b'. apply state_ext; try done.
    rewrite !featureFlags_setFeatureFlag.
    remember (JsObject.spreadInto [] (featureFlags st)) as flags eqn:Hflags.
    rewrite (Hsame (JsObject.put flags f b))
      by (by apply wf_put || by apply ordered_put).
    apply put_put.
  - intros g c h Hg. rewrite !featureFlags_setFeatureFlag.
    remember (JsObject.spreadInto [] (featureFlags st)) as flags eqn:Hflags.
    rewrite (Hsame (JsObject.put flags f b))
      by (by apply wf_put || by apply ordered_put).
    rewrite (Hsame (JsObject.put flags g c))
      by (by apply wf_put || by apply ordered_put).
    destruct (decide (f = h)) as [Hf|Hf]; destruct (decide (g = h)) as [Hg'|Hg'].
    + congruence.
    + subst h. rewrite (get_put_ne _ g f) by done. by rewrite !get_put_eq.
    + subst h. rewrite (get_put_ne _ f g) by done. by rewrite !get_put_eq.
    + by rewrite !get_put_ne by done.
Qed.

(** The flags of a reachable state have distinct names, listed as an object
    lists its keys. *)
Lemma reachable_featureFlags_ordered st :
  reachable cs st →
  JsObject.wf (featureFlags st) ∧ JsObject.ordered (featureFlags st).
Proof.
  induction 1 as [|st l _ IH|st a sym dec _ IH|st a _ IH|st a _ IH
                  |st a label _ IH|st f b _ IH|st l Hreach IH|st l _ IH];
    try exact IH.
  - split; [apply NoDup_nil_2 | constructor].
  - by rewrite (proj1 (proj2 (removeIdentity_frame st a))).
  - rewrite featureFlags_setFeatureFlag.
    destruct (spread_fresh_wf_ordered (featureFlags st)).
    split; [by apply wf_put | by apply ordered_put].
  - destruct (syncIdentities_unfold cs st l (reachable_wf cs st Hreach))
      as (_ & _ & _ & _ & Hff & _).
    simpl in Hff. by rewrite Hff.
Qed.

(** *** Running [updateIdentities] again *)

Local Abbreviation updater old :=
  (λ (ids : jsobject ContactEntry) (a : string) (index : nat),
     JsObject.set ids a
       (spread {| address := Some a; name := Some (accountName (index + 1)) |}
               (default emptyEntry (JsObject.get old a)))).

Lemma spread_complete fresh old :
  is_Some (address fresh) → is_Some (name fresh) →
  is_Some (address (spread fresh old)) ∧ is_Some (name (spread fresh old)).
Proof.
  intros [a Ha] [n Hn]. unfold spread. simpl. rewrite Ha, Hn.
  destruct (address old), (name old); eauto.
Qed.

Lemma spread_over_complete fresh old :
  is_Some (address old) → is_Some (name old) → spread fresh old = old.
Proof. destruct old as [[a|] [n|]]; intros [? ?] [? ?]; by simplify_eq/=. Qed.

Lemma keys_update_any_old old old' L i j acc acc' :
  JsObject.keys acc = JsObject.keys acc' →
  JsObject.keys (reduceFrom (updater old) i L acc)
  = JsObject.keys (reduceFrom (updater old') j L acc').
Proof.
  revert i j acc acc'. induction L as [|a L IH]; intros i j acc acc' Hacc; [done|].
  simpl. apply IH. by rewrite !keys_set, Hacc.
Qed.

Lemma last_occurrence (L : list string) k :
  k ∈ L → ∃ L1 L2, L = L1 ++ k :: L2 ∧ k ∉ L2.
Proof.
  induction L as [|b L IH]; intros Hk; [by apply elem_of_nil in Hk|].
  destruct (decide (k ∈ L)) as [Hin|Hout].
  - destruct (IH Hin) as (L1 & L2 & -> & ?). by exists (b :: L1), L2.
  - apply elem_of_cons in Hk as [->|?]; [|done]. by exists [], L.
Qed.

(** X10: After [updateIdentities] every identity has an [address] and a [name],
    and running it again on the same list changes nothing. *)
Theorem updateIdentities_settles st l :
  let st' := updateIdentities cs st l in
  (∀ k e, JsObject.get (identities st') k = Some e →
          is_Some (address e) ∧ is_Some (name e))
  ∧ updateIdentities cs st' l = st'.
Proof.
  intros st'.
  assert (Hfull : ∀ k e, JsObject.get (identities st') k = Some e →
                         is_Some (address e) ∧ is_Some (name e)).
  { intros k e Hget.
    assert (Hk : k ∈ cs <$> l).
    { assert (Hin : k ∈ JsObject.keys (identities st'))
        by (apply get_is_Some; eauto).
      unfold st' in Hin. simpl in Hin.
      apply elem_of_keys_update in Hin as [Hin|Hin]; [|done].
      by apply elem_of_nil in Hin. }
    destruct (last_occurrence _ _ Hk) as (L1 & L2 & HL & HL2).
    unfold st' in Hget. simpl in Hget. rewrite HL in Hget.
    rewrite get_update_last in Hget by done. simplify_eq.
    apply spread_complete; simpl; eauto. }
  split; [done|].
  apply state_ext; try done. simpl.
  apply jsobject_ext.
  - apply wf_reduceFrom_update, NoDup_nil_2.
  - by apply keys_update_any_old.
  - intros k. destruct (decide (k ∈ cs <$> l)) as [Hk|Hk].
    + destruct (last_occurrence _ _ Hk) as (L1 & L2 & HL & HL2).
      rewrite HL. rewrite !get_update_last by done. simpl. f_equal.
      apply spread_over_complete; apply spread_complete; simpl; eauto.
    + by rewrite !get_update_absent.
Qed.

(** *** With an idempotent checksum *)

Hypothesis checksum_idempotent :
  ∀ a, toChecksumAddress (toChecksumAddress a) = toChecksumAddress a.

Lemma filter_drops_all {A} (P : A → Prop) `{!∀ x, Decision (P x)} (l : list A) :
  Forall (λ x, ¬ P x) l → filter P l = [].
Proof.
  induction 1 as [|x l Hx _ IH]; [done|].
  by rewrite filter_cons, decide_False, IH.
Qed.

Lemma wf_syncIdentities st l :
  JsObject.wf (identities st) → JsObject.wf (identities (syncIdentities cs st l).1).
Proof.
  intros Hwf. destruct (syncIdentities_unfold cs st l Hwf) as (-> & _).
  apply wf_addIdentities_fold.
  exact (wf_filter_key (λ k, k ∈ cs <$> l) (identities st) Hwf).
Qed.

Lemma syncIdentities_same_keys st l :
  JsObject.wf (identities st) →
  (∀ k, k ∈ JsObject.keys (identities st) ↔ k ∈ cs <$> l) →
  identities (syncIdentities cs st l).1 = identities st
  ∧ lostIdentities (syncIdentities cs st l).1 = lostIdentities st.
Proof.
  intros Hwf Hkeys.
  destruct (syncIdentities_unfold cs st l Hwf) as (-> & -> & _).
  assert (Hall : Forall (λ kv : string * ContactEntry, kv.1 ∈ cs <$> l)
                        (identities st)).
  { apply Forall_forall. intros [k e] Hin. simpl. apply Hkeys.
    apply list_elem_of_fmap. by exists (k, e). }
  split.
  - rewrite filter_keeps_all by done. apply addIdentities_fold_present.
    intros a (b & -> & Hb)%list_elem_of_fmap. rewrite checksum_idempotent.
    apply Hkeys, list_elem_of_fmap. by exists b.
  - rewrite filter_drops_all; [done|].
    eapply Forall_impl; [exact Hall|]. simpl. tauto.
Qed.

(** X11: [syncIdentities] with a list that names exactly the stored identities
    leaves [identities] and [lostIdentities] as they are; so syncing a
    second time with the same list changes nothing and returns the same
    address. *)
Theorem syncIdentities_idempotent st l :
  JsObject.wf (identities st) →
  ((∀ k, k ∈ JsObject.keys (identities st) ↔ k ∈ cs <$> l) →
   identities (syncIdentities cs st l).1 = identities st
   ∧ lostIdentities (syncIdentities cs st l).1 = lostIdentities st)
  ∧ syncIdentities cs (syncIdentities cs st l).1 l = syncIdentities cs st l.
Proof.
  intros Hwf. split; [by apply syncIdentities_same_keys|].
  set (st1 := (syncIdentities cs st l).1).
  assert (Hwf1 : JsObject.wf (identities st1)) by by apply wf_syncIdentities.
  destruct (syncIdentities_same_keys st1 l Hwf1) as [Hids Hlost].
  { intros k. by apply elem_of_keys_syncIdentities. }
  destruct (syncIdentities_unfold cs st l Hwf) as (_ & _ & Hsel & Hret & _).
  destruct (syncIdentities_unfold cs st1 l Hwf1)
    as (_ & _ & Hsel1 & Hret1 & Hff1 & Htoks1).
  fold st1 in Hsel, Hret. simpl in Hsel, Hsel1.
  assert (Hsame : selectedAddress (syncIdentities cs st1 l).1 = selectedAddress st1).
  { rewrite Hsel1, Hsel.
    destruct (selectedAddress st) as [s|].
    - destruct (decide (s ∈ cs <$> l)) as [Hs|Hs]; [by rewrite decide_True|].
      destruct (head (cs <$> l)) as [s'|] eqn:Hhead; [|done].
      by rewrite decide_True by by apply head_Some_elem_of.
    - destruct (head (cs <$> l)) as [s'|] eqn:Hhead; [|done].
      by rewrite decide_True by by apply head_Some_elem_of. }
  rewrite (surjective_pairing (syncIdentities cs st1 l)).
  rewrite (surjective_pairing (syncIdentities cs st l)).
  fold st1. f_equal.
  - by apply state_ext.
  - by rewrite Hret1, Hret.
Qed.

(** *** What holds in every reachable state *)

Lemma elem_of_replaceOrAppend a (new t : Token number) toks :
  t ∈ replaceOrAppend a new toks → t = new ∨ t ∈ toks.
Proof.
  induction toks as [|t0 toks IH]; simpl.
  - intros ->%list_elem_of_singleton. by left.
  - case_decide.
    + intros [->|?]%elem_of_cons; [by left | right; by right].
    + intros [->|Hin]%elem_of_cons; [right; left|].
      destruct (IH Hin); [by left | right; by right].
Qed.

Lemma syncLoop_Forall (P : string * ContactEntry → Prop) (L ks : list string) acc :
  Forall P acc.1 → Forall P acc.2 →
  Forall P (foldl (syncLoop L) acc ks).1 ∧ Forall P (foldl (syncLoop L) acc ks).2.
Proof.
  revert acc. induction ks as [|k ks IH]; intros [ids nl] Hids Hnl; simpl; [done|].
  apply IH; case_decide; try done;
    destruct (JsObject.get ids k) as [e|] eqn:Hget; try done; simpl in *.
  - by apply Forall_del.
  - apply Forall_set; [done|].
    apply get_Some_elem in Hget. by apply (proj1 (Forall_forall _ _) Hids).
Qed.

Lemma assign_all_Forall (P : string * ContactEntry → Prop) dst src :
  Forall P dst → Forall P src →
  Forall P (foldl (λ (acc : jsobject ContactEntry) kv, JsObject.set acc kv.1 kv.2)
                  dst src).
Proof.
  intros Hdst Hsrc. revert dst Hdst.
  induction Hsrc as [|[k e] src Hke _ IH]; intros dst Hdst; simpl; [done|].
  apply IH. by apply Forall_set.
Qed.

Lemma syncIdentities_Forall (P : string * ContactEntry → Prop) st l :
  Forall P (identities st) → Forall P (lostIdentities st) →
  (∀ a n, P (cs a, {| address := Some (cs a); name := Some n |})) →
  Forall P (identities (syncIdentities cs st l).1)
  ∧ Forall P (lostIdentities (syncIdentities cs st l).1).
Proof.
  intros Hids Hlost Hnew. unfold syncIdentities.
  destruct (syncLoop_Forall P (cs <$> l) (JsObject.keys (identities st))
              (identities st, [])) as [Hkept Hgone]; [done | apply Forall_nil_2 |].
  destruct (foldl _ _ _) as [ids nl]. simpl in Hkept, Hgone.
  assert (Hadded : Forall P (foldl (addIdentity cs) ids (cs <$> l))).
  { clear -Hkept Hnew. revert ids Hkept.
    induction (cs <$> l) as [|a L IH]; intros ids Hids; simpl; [done|].
    apply IH. rewrite addIdentity_unfold. case_decide; [done|].
    apply Forall_app. split; [done|]. apply Forall_singleton. apply Hnew. }
  assert (Hlost' : Forall P
            (if decide (0 < length (JsObject.keys nl))
             then foldl (λ (acc : jsobject ContactEntry) kv,
                           JsObject.set acc kv.1 kv.2) (lostIdentities st) nl
             else lostIdentities st)).
  { case_decide; [by apply assign_all_Forall | done]. }
  simpl. destruct (selectedAddress st) as [s|];
    [destruct (decide (s ∈ cs <$> l))|]; simpl; by split.
Qed.

(** One invariant of the three address-keyed stores, over any property [P]
    of a key and the record under it that the records the controller builds
    satisfy. *)
Lemma reachable_Forall (P : string * ContactEntry → Prop) st :
  (∀ a n, P (cs a, {| address := Some (cs a); name := Some n |})) →
  (∀ a n, P (cs a, {| address := None; name := Some n |})) →
  (∀ k e n, P (k, e) → P (k, {| address := address e; name := Some n |})) →
  (∀ k e n, P (k, e) →
     P (k, spread {| address := Some k; name := Some n |} e)) →
  reachable cs st →
  Forall P (identities st) ∧ Forall P (lostIdentities st).
Proof.
  intros Hnew Hbare Hrename Hspread.
  induction 1 as [|st l _ [IHi IHl]|st a sym dec _ IH|st a _ [IHi IHl]|st a _ IH
                  |st a label _ [IHi IHl]|st f b _ IH|st l _ [IHi IHl]
                  |st l _ [IHi IHl]]; try exact IH.
  - split; apply Forall_nil_2.
  - split; [|done]. simpl. clear -IHi Hnew. revert IHi.
    generalize (identities st). induction l as [|a l IH]; intros ids Hids; [done|].
    simpl. apply IH. rewrite addIdentity_unfold. case_decide; [done|].
    apply Forall_app. split; [done|]. apply Forall_singleton, Hnew.
  - split.
    + rewrite removeIdentity_identities. by apply Forall_del.
    + by rewrite (proj1 (removeIdentity_frame st a)).
  - split; [|done]. rewrite setAccountLabel_identities.
    apply Forall_set; [done|].
    destruct (JsObject.get (identities st) (cs a)) as [e|] eqn:Hget; simpl.
    + apply Hrename. apply get_Some_elem in Hget.
      by apply (proj1 (Forall_forall _ _) IHi).
    + apply Hbare.
  - by apply syncIdentities_Forall.
  - split; [|done]. simpl.
    assert (Hgen : ∀ L i acc, Forall P acc → (∀ k, k ∈ L → ∃ a, k = cs a) →
              Forall P (reduceFrom (updater (identities st)) i L acc)).
    { induction L as [|k L IHL]; intros i acc Hacc HL; simpl; [done|].
      apply IHL; [|intros k' Hk'; apply HL; by right].
      apply Forall_set; [done|].
      destruct (JsObject.get (identities st) k) as [e|] eqn:Hget; simpl.
      - apply Hspread. apply get_Some_elem in Hget.
        by apply (proj1 (Forall_forall _ _) IHi).
      - destruct (HL k) as [a ->]; [left|]. apply Hnew. }
    apply Hgen; [apply Forall_nil_2|].
    intros k (a & -> & _)%list_elem_of_fmap. by exists a.
Qed.

Lemma reachable_tokens_checksummed st :
  reachable cs st →
  Forall (λ t : Token number, cs (tokenAddress t) = tokenAddress t) (tokens st).
Proof.
  induction 1 as [|st l _ IH|st a sym dec _ IH|st a _ IH|st a _ IH
                  |st a label _ IH|st f b _ IH|st l Hreach IH|st l _ IH];
    try exact IH.
  - apply Forall_nil_2.
  - change (tokens (addToken cs st a sym dec).1)
      with (addToken cs st a sym dec).2.
    rewrite addToken_replaceOrAppend. apply Forall_forall.
    intros t [->|Hin]%elem_of_replaceOrAppend.
    + simpl. apply checksum_idempotent.
    + by apply (proj1 (Forall_forall _ _) IH).
  - by rewrite (proj2 (proj2 (removeIdentity_frame st a))).
  - simpl. apply Forall_forall. intros t [_ Hin]%list_elem_of_filter.
    by apply (proj1 (Forall_forall _ _) IH).
  - destruct (syncIdentities_unfold cs st l (reachable_wf cs st Hreach))
      as (_ & _ & _ & _ & _ & Htoks).
    simpl in Htoks. by rewrite Htoks.
Qed.

Local Abbreviation normal :=
  (λ kv : string * ContactEntry,
     cs kv.1 = kv.1 ∧ ∀ a, address kv.2 = Some a → cs a = kv.1).

Lemma reachable_normal st :
  reachable cs st →
  Forall normal (identities st) ∧ Forall normal (lostIdentities st).
Proof.
  apply reachable_Forall; simpl.
  - intros a n. split; [apply checksum_idempotent|].
    intros ? [= <-]. apply checksum_idempotent.
  - intros a n. split; [apply checksum_idempotent | done].
  - intros k e n [Hk He]. by split.
  - intros k e n [Hk He]. split; [done|]. intros a.
    destruct (address e) as [a'|]; intros [= <-]; [by apply He | done].
Qed.

(** X12: In every reachable state the keys of [identities] and of
    [lostIdentities] and the addresses of the tokens are checksummed forms
    (the checksum leaves them as they are), and a record that has an
    [address] field is stored under the checksummed form of that address. *)
Theorem reachable_addresses_checksummed st :
  reachable cs st →
  (∀ k, k ∈ JsObject.keys (identities st) → cs k = k)
  ∧ (∀ k, k ∈ JsObject.keys (lostIdentities st) → cs k = k)
  ∧ (∀ t, t ∈ tokens st → cs (tokenAddress t) = tokenAddress t)
  ∧ (∀ k e a, JsObject.get (identities st) k = Some e →
       address e = Some a → cs a = k)
  ∧ (∀ k e a, JsObject.get (lostIdentities st) k = Some e →
       address e = Some a → cs a = k).
Proof.
  intros Hreach.
  destruct (reachable_normal st Hreach) as [Hids Hlost].
  pose proof (reachable_tokens_checksummed st Hreach) as Htoks.
  rewrite Forall_forall in Hids. rewrite Forall_forall in Hlost.
  rewrite Forall_forall in Htoks.
  split_and!.
  - intros k [e He]%get_is_Some. apply get_Some_elem in He.
    by destruct (Hids _ He).
  - intros k [e He]%get_is_Some. apply get_Some_elem in He.
    by destruct (Hlost _ He).
  - done.
  - intros k e a He%get_Some_elem Ha. destruct (Hids _ He) as [_ Hadr]. by apply Hadr.
  - intros k e a He%get_Some_elem Ha. destruct (Hlost _ He) as [_ Hadr]. by apply Hadr.
Qed.

(** X13: From a reachable state, [updateIdentities] gives identities whose every
    key is the checksummed form of the [address] stored under it, also for
    records that [setAccountLabel] had created without an [address]. *)
Theorem updateIdentities_restores_key_invariant st l :
  reachable cs st →
  keyedByChecksum cs (identities (updateIdentities cs st l)).
Proof.
  intros Hreach. destruct (reachable_normal st Hreach) as [Hids _].
  rewrite Forall_forall in Hids. simpl. unfold keyedByChecksum.
  assert (Hgen : ∀ L i acc,
            Forall (λ kv, cs <$> address kv.2 = Some kv.1) acc →
            (∀ k, k ∈ L → cs k = k) →
            Forall (λ kv, cs <$> address kv.2 = Some kv.1)
                   (reduceFrom (updater (identities st)) i L acc)).
  { induction L as [|k L IHL]; intros i acc Hacc HL; simpl; [done|].
    apply IHL; [|intros k' Hk'; apply HL; by right].
    apply Forall_set; [done|]. simpl.
    destruct (JsObject.get (identities st) k) as [e|] eqn:Hget; simpl.
    - apply get_Some_elem in Hget. destruct (Hids _ Hget) as [_ Hadr].
      simpl in Hadr. destruct (address e) as [a|]; simpl.
      + by rewrite (Hadr a).
      + rewrite HL; [done | left].
    - rewrite HL; [done | left]. }
  apply Hgen; [apply Forall_nil_2|].
  intros k (a & -> & _)%list_elem_of_fmap. apply checksum_idempotent.
Qed.

(** X14: [syncIdentities] returns one of the checksummed addresses of its list,
    and [undefined] only for the empty list. *)
Theorem syncIdentities_returns_listed_address st l :
  JsObject.wf (identities st) →
  match (syncIdentities cs st l).2 with
  | Some s => s ∈ cs <$> l
  | None => l = []
  end.
Proof.
  intros Hwf.
  destruct (syncIdentities_unfold cs st l Hwf) as (_ & _ & Hsel & -> & _).
  simpl in Hsel. rewrite Hsel.
  assert (Hhead : match head (cs <$> l) with
                  | Some s => s ∈ cs <$> l
                  | None => l = []
                  end).
  { destruct l as [|a l']; simpl; [done | left]. }
  destruct (selectedAddress st) as [s|]; [|done].
  by case_decide.
Qed.

End IdentityFacts.

(** * Further properties of the ERC-721 probes *)

Section ProbeMore.
Import Remote.
Context {Contract Error : Type}.
Variable web3At : string → Contract.
Variable node : Node Contract Error.
Variable ERC721_INTERFACE_ID : string.
Variable ERC721_METADATA_INTERFACE_ID : string.
Variable ERC721 : string.

Local Abbreviation supportsCall contract interfaceId :=
  (mkCall contract (SupportsInterface interfaceId)).
Local Abbreviation baseCall address :=
  (supportsCall (web3At address) ERC721_INTERFACE_ID).
Local Abbreviation metaCall address :=
  (supportsCall (web3At address) ERC721_METADATA_INTERFACE_ID).
Local Abbreviation symbolCall address := (mkCall (web3At address) Symbol).
Local Abbreviation nameCall address := (mkCall (web3At address) Name).
Local Abbreviation uriCall address id := (mkCall (web3At address) (TokenURI id)).
Local Abbreviation getDetails :=
  (ERC721Standard.getDetails web3At node ERC721_INTERFACE_ID
     ERC721_METADATA_INTERFACE_ID ERC721).
Local Abbreviation getTokenURI :=
  (ERC721Standard.getTokenURI web3At node ERC721_METADATA_INTERFACE_ID).
Local Abbreviation noMetadata :=
  "Contract does not support ERC721 metadata interface.".
Local Abbreviation notERC721 := "This isn't a valid ERC721 contract".

(** Unfolds the probes down to the replies of the node. *)
Ltac unfold_probe :=
  unfold ERC721Standard.getDetails, ERC721Standard.getTokenURI,
    ERC721StandardMethods.getCollectibleTokenURI,
    ERC721Standard.contractSupportsBase721Interface,
    ERC721Standard.contractSupportsMetadataInterface,
    ERC721StandardMethods.contractSupportsMetadataInterface,
    ERC721Standard.getAssetSymbol, ERC721Standard.getAssetName,
    ERC721Standard.contractSupportsInterface,
    ERC721StandardMethods.contractSupportsInterface,
    bind, all2, callBool, callString, ret, throw in *.

(** X15: When the metadata-interface check reports [true], [getTokenURI] and
    [getCollectibleTokenURI] issue the [tokenURI] call as their second and
    last call and settle as it does: they resolve to the string it reports
    and reject with the error it reports.  When the check itself fails,
    they reject with its error after that one call. *)
Theorem tokenURI_settles_as_remote_call (address tokenId : string)
    (contract : Contract) (log : list (Call Contract)) :
  (replyBool node log (metaCall address) = inr true →
   getTokenURI address tokenId log
   = (settle (replyString node (log ++ [metaCall address]) (uriCall address tokenId)),
      log ++ [metaCall address; uriCall address tokenId]))
  ∧ (∀ e, replyBool node log (metaCall address) = inl e →
       getTokenURI address tokenId log
       = (Rejected (Propagated e), log ++ [metaCall address]))
  ∧ (let check :=
       supportsCall contract ERC721StandardMethods.ERC721_METADATA_INTERFACE_ID in
     (replyBool node log check = inr true →
      ERC721StandardMethods.getCollectibleTokenURI node contract tokenId log
      = (settle (replyString node (log ++ [check])
                   (mkCall contract (TokenURI tokenId))),
         log ++ [check; mkCall contract (TokenURI tokenId)]))
     ∧ (∀ e, replyBool node log check = inl e →
          ERC721StandardMethods.getCollectibleTokenURI node contract tokenId log
          = (Rejected (Propagated e), log ++ [check]))).
Proof.
  split_and!; [| |intros check; subst check; split]; unfold_probe.
  - intros ->. simpl. by rewrite <- app_assoc.
  - by intros e ->.
  - intros ->. simpl. by rewrite <- app_assoc.
  - by intros e ->.
Qed.

(** Case analysis on every reply of the node that the goal depends on. *)
Ltac reply_cases :=
  repeat match goal with
    | |- context [replyBool node ?h ?c] =>
        destruct (replyBool node h c) as [?|[|]] eqn:?; simpl
    | |- context [replyString node ?h ?c] =>
        destruct (replyString node h c) as [?|?] eqn:?; simpl
    | |- context [firstRejectsFirst node ?h] =>
        destruct (firstRejectsFirst node h); simpl
    end.

(** X16: Whatever the node replies, [getDetails] starts with the base-interface
    and the metadata-interface checks, both issued before either settles.
    It goes on to [symbol] and [name] exactly when both checks resolve and
    the metadata check reports [true]; after these it may check the metadata
    interface again and call [tokenURI], only for a token id that was given
    and is not empty.  It issues no other call, so at most six. *)
Theorem getDetails_call_discipline (address : string) (tokenId : option string)
    (log : list (Call Contract)) :
  ∃ rest,
    (getDetails address tokenId log).2
    = log ++ baseCall address :: metaCall address :: rest
    ∧ (rest = []
       ∨ rest = [symbolCall address; nameCall address]
       ∨ ∃ id, tokenId = Some id ∧ id ≠ EmptyString
          ∧ (rest = [symbolCall address; nameCall address; metaCall address]
             ∨ rest = [symbolCall address; nameCall address; metaCall address;
                       uriCall address id]))
    ∧ (rest ≠ [] ↔
       (∃ b, replyBool node log (baseCall address) = inr b)
       ∧ replyBool node (log ++ [baseCall address]) (metaCall address) = inr true)
    ∧ (truthy tokenId = false →
       rest = [] ∨ rest = [symbolCall address; nameCall address]).
Proof.
  unfold_probe. unfold settle.
  destruct tokenId as [id|]; simpl;
    [destruct (decide (id = EmptyString)) as [Hid|Hid]; simpl|];
    reply_cases;
    (eexists; split_and!;
     [ rewrite <- ?app_assoc; simpl; reflexivity
     | first [ by left | by right; left
             | right; right; exists id; split_and!; [done | done |];
               first [ by left | by right ] ]
     | split;
       [ intros Hrest; first [ by destruct Hrest | split; [by eexists | done] ]
       | first [ intros [[? ?] ?]; by simplify_eq | done ] ]
     | first [ by left | by right | done ] ]).
Qed.

(** X17: What [getDetails] settles with comes from the node.  It resolves only
    when the base-interface check reported [true]; the aggregate then
    carries the standard name and, when the metadata check reported [true],
    the symbol and name the node reported and, for a token id, the token URI
    it reported, and no field otherwise.  The only errors of its own are
    "This isn't a valid ERC721 contract", when the base check reported
    [false], and the metadata error of [getTokenURI], when the metadata
    check reported [true] first and [false] when repeated; any other
    rejection carries the error that one of the calls it issued reported,
    at the log that call was issued on. *)
Theorem getDetails_settles_from_replies (address : string)
    (tokenId : option string) (log : list (Call Contract)) :
  let log1 := log ++ [baseCall address] in
  let log2 := log1 ++ [metaCall address] in
  let log3 := log2 ++ [symbolCall address] in
  let log4 := log3 ++ [nameCall address] in
  let log5 := log4 ++ [metaCall address] in
  let outcome := (getDetails address tokenId log).1 in
  (∀ d, outcome = Resolved d →
     replyBool node log (baseCall address) = inr true
     ∧ ERC721Standard.standard d = ERC721
     ∧ ((replyBool node log1 (metaCall address) = inr false
         ∧ d = ERC721Standard.mkDetails ERC721 None None None)
        ∨ (replyBool node log1 (metaCall address) = inr true
           ∧ (∃ s, replyString node log2 (symbolCall address) = inr s
                   ∧ ERC721Standard.symbol d = Some s)
           ∧ (∃ n, replyString node log3 (nameCall address) = inr n
                   ∧ ERC721Standard.name d = Some n)
           ∧ ((truthy tokenId = false ∧ ERC721Standard.tokenURI d = None)
              ∨ (∃ id u, tokenId = Some id
                         ∧ replyString node log5 (uriCall address id) = inr u
                         ∧ ERC721Standard.tokenURI d = Some u)))))
  ∧ (∀ m, outcome = Rejected (Thrown m) →
       (m = notERC721 ∧ replyBool node log (baseCall address) = inr false)
       ∨ (m = noMetadata ∧ truthy tokenId = true
          ∧ replyBool node log1 (metaCall address) = inr true
          ∧ replyBool node log4 (metaCall address) = inr false))
  ∧ (∀ e, outcome = Rejected (Propagated e) →
       replyBool node log (baseCall address) = inl e
       ∨ replyBool node log1 (metaCall address) = inl e
       ∨ ((∃ b, replyBool node log (baseCall address) = inr b)
          ∧ replyBool node log1 (metaCall address) = inr true
          ∧ (replyString node log2 (symbolCall address) = inl e
             ∨ replyString node log3 (nameCall address) = inl e
             ∨ ((∃ s, replyString node log2 (symbolCall address) = inr s)
                ∧ (∃ n, replyString node log3 (nameCall address) = inr n)
                ∧ ∃ id, tokenId = Some id ∧ id ≠ EmptyString
                   ∧ (replyBool node log4 (metaCall address) = inl e
                      ∨ (replyBool node log4 (metaCall address) = inr true
                         ∧ replyString node log5 (uriCall address id)
                           = inl e)))))).
Proof.
  intros log1 log2 log3 log4 log5 outcome.
  subst outcome log5 log4 log3 log2 log1.
  unfold_probe. unfold settle.
  destruct tokenId as [id|]; simpl;
    [destruct (decide (id = EmptyString)) as [Hid|Hid]; simpl|];
    reply_cases;
    (split_and!;
     [ first
         [ intros d [= <-]; simpl; split_and!;
           [ done | done
           | first
               [ by left
               | right; split_and!;
                 [done | by eexists | by eexists
                 | first [ by left | right; by exists id; eexists ] ] ] ]
         | by intros d [=] ]
     | first
         [ intros m [= <-]; simpl; first [ by left | by right ]
         | by intros m [=] ]
     | first
         [ intros e' [= <-];
           first
             [ by left
             | by right; left
             | right; right; split_and!; [by eexists | done |];
               first
                 [ by left
                 | by right; left
                 | right; right; split_and!; [by eexists | by eexists |];
                   exists id; split_and!; [done | done |];
                   first [ by left | by right ] ] ]
         | by intros e' [=] ] ]).
Qed.

End ProbeMore.

(** * More runs on concrete inputs *)

Section MoreRuns.
Import Preferences Sample MoreSamples.

Ltac evaluate := apply (bool_decide_unpack _); by vm_compute.

Lemma labelled_reachable : reachable upperHex labelled.
Proof. apply reach_setAccountLabel, reach_addIdentities, reach_default. Defined.

Lemma watching_reachable : reachable upperHex watching.
Proof. apply reach_addToken, reach_addToken, reach_default. Defined.

Lemma removeToken_drops_address_witness :
  tokens (removeToken upperHex watching "0xABC")
  = [{| tokenAddress := "0xDEF"; symbol := "OTH"; decimals := 6 |}]
  ∧ removeToken upperHex watching "0x123" = watching
  ∧ removeToken upperHex (removeToken upperHex watching "0xABC") "0xabc"
    = removeToken upperHex watching "0xABC".
Proof.
  pose proof (removeToken_drops_address upperHex watching "0x123")
    as (_ & _ & Habsent & _).
  pose proof (removeToken_drops_address upperHex watching "0xABC")
    as (_ & _ & _ & Hagain & _).
  split_and!.
  - reflexivity.
  - apply Habsent. repeat constructor; by vm_compute.
  - apply Hagain. reflexivity.
Defined.

Lemma removeToken_undoes_addToken_witness :
  removeToken upperHex (addToken upperHex watching "0x9f" "NEW" 2).1 "0x9F"
  = watching.
Proof.
  destruct (removeToken_undoes_addToken upperHex watching "0x9f" "0x9F" "NEW" 2)
    as [_ Hback]; [reflexivity|].
  apply Hback. repeat constructor; by vm_compute.
Defined.

Lemma token_addresses_stay_distinct_witness :
  NoDup (tokenAddress <$> tokens watching)
  ∧ NoDup (tokenAddress <$> tokens (addToken upperHex watching "0xABC" "X" 1).1)
  ∧ tokenAddress <$> (addToken upperHex watching "0xABC" "X" 1).2
    = ["0xABC"; "0xDEF"].
Proof.
  pose proof (token_addresses_stay_distinct upperHex watching)
    as (Hadd & Hkeep & Hreach).
  split_and!.
  - apply Hreach, watching_reachable.
  - apply Hkeep. apply Hreach, watching_reachable.
  - rewrite Hadd. reflexivity.
Defined.

Lemma addIdentities_absorbs_known_addresses_witness :
  addIdentities upperHex twoIdentities ["0xa1"; "0xb2"] = twoIdentities.
Proof.
  pose proof (addIdentities_absorbs_known_addresses upperHex twoIdentities [])
    as (Hknown & _).
  apply Hknown. intros a Ha.
  apply elem_of_cons in Ha as [->|Ha]; [evaluate|].
  apply elem_of_cons in Ha as [->|Ha]; [evaluate|].
  by apply elem_of_nil in Ha.
Defined.

Lemma removeIdentity_removes_one_key_witness :
  removeIdentity upperHex twoIdentities "0xc3" = twoIdentities
  ∧ selectedAddress (removeIdentity upperHex twoIdentities "0xb2") = Some "0xA1"
  ∧ selectedAddress (removeIdentity upperHex twoIdentities "0xa1") = Some "0xB2".
Proof.
  split_and!.
  - pose proof (removeIdentity_removes_one_key upperHex twoIdentities "0xc3")
      as (Habsent & _).
    apply Habsent. evaluate.
  - pose proof (removeIdentity_removes_one_key upperHex twoIdentities "0xb2")
      as (_ & _ & _ & _ & Hother & _).
    rewrite Hother; [reflexivity | by vm_compute].
  - pose proof (removeIdentity_removes_one_key upperHex twoIdentities "0xa1")
      as (_ & _ & _ & _ & _ & Hsel & _).
    rewrite Hsel; [reflexivity | reflexivity | evaluate].
Defined.

Lemma removeIdentity_undoes_addIdentities_witness :
  removeIdentity upperHex (addIdentities upperHex twoIdentities ["0xc3"]) "0xC3"
  = twoIdentities.
Proof.
  destruct (removeIdentity_undoes_addIdentities upperHex twoIdentities "0xC3")
    as [_ Hback]; [evaluate|].
  apply Hback. by vm_compute.
Defined.

Lemma setAccountLabel_sets_name_only_witness :
  JsObject.get (identities (setAccountLabel upperHex twoIdentities "0xa1" "cold"))
    "0xA1"
  = Some {| address := Some "0xa1"; name := Some "cold" |}
  ∧ setAccountLabel upperHex
      (setAccountLabel upperHex twoIdentities "0xa1" "cold") "0xA1" "hot"
    = setAccountLabel upperHex twoIdentities "0xa1" "hot".
Proof.
  pose proof (setAccountLabel_sets_name_only upperHex twoIdentities "0xa1" "cold")
    as (Hget & _ & _ & Hlast & _).
  split; [exact Hget | by apply Hlast].
Defined.

Lemma lostIdentities_only_grow_witness :
  JsObject.keys (lostIdentities (syncIdentities upperHex twoIdentities ["0xb2"]).1)
  = ["0xA1"]
  ∧ ("0xA1" ∈ JsObject.keys
       (lostIdentities
          (syncIdentities upperHex
             (syncIdentities upperHex twoIdentities ["0xb2"]).1
             ["0xa1"; "0xb2"]).1)).
Proof.
  split; [reflexivity|].
  pose proof (lostIdentities_only_grow upperHex
                (syncIdentities upperHex twoIdentities ["0xb2"]).1)
    as (_ & _ & _ & _ & _ & _ & _ & Hkeep & _).
  apply Hkeep. evaluate.
Defined.

Lemma setFeatureFlag_merges_one_flag_witness :
  let st := setFeatureFlag twoIdentities "beta" true in
  JsObject.keys (featureFlags (setFeatureFlag st "1" true)) = ["1"; "beta"]
  ∧ JsObject.keys (featureFlags (setFeatureFlag st "dark" false)) = ["beta"; "dark"]
  ∧ setFeatureFlag st "beta" true = st
  ∧ JsObject.get (featureFlags (setFeatureFlag st "dark" false)) "beta" = Some true.
Proof.
  intros st.
  assert (Hwf : JsObject.wf (featureFlags st)) by apply NoDup_singleton.
  assert (Hord : JsObject.ordered (featureFlags st)).
  { apply StronglySorted_cons. split; [apply Forall_nil_2 | constructor]. }
  pose proof (setFeatureFlag_merges_one_flag st "1" true Hwf)
    as (_ & _ & _ & _ & _ & Hone & _).
  destruct (Hone Hord) as (_ & _ & Hindex & _).
  pose proof (setFeatureFlag_merges_one_flag st "dark" false Hwf)
    as (_ & Hother & _ & _ & _ & Hdark & _).
  destruct (Hdark Hord) as (_ & Hlast & _).
  pose proof (setFeatureFlag_merges_one_flag st "beta" true Hwf)
    as (_ & _ & _ & _ & _ & Hbeta & _).
  destruct (Hbeta Hord) as (_ & _ & _ & Hsame).
  split_and!.
  - destruct (Hindex 1%N) as (before & after & Hkeys & -> & Hbefore & _).
    + evaluate.
    + reflexivity.
    + destruct before as [|k before]; [by simplify_eq/=|].
      simplify_eq/=. destruct (Hbefore "beta") as (m & Hm & _); [left|].
      discriminate Hm.
  - apply Hlast; [evaluate | reflexivity].
  - apply Hsame. reflexivity.
  - rewrite Hother; [reflexivity | by vm_compute].
Defined.

Lemma updateIdentities_settles_witness :
  let st' := updateIdentities upperHex labelled ["0xb2"; "0xa1"] in
  updateIdentities upperHex st' ["0xb2"; "0xa1"] = st'
  ∧ is_Some (address {| address := Some "0xB2"; name := Some "savings" |})
  ∧ JsObject.get (identities st') "0xB2"
    = Some {| address := Some "0xB2"; name := Some "savings" |}.
Proof.
  intros st'.
  pose proof (updateIdentities_settles upperHex labelled ["0xb2"; "0xa1"])
    as [Hfull Hagain].
  split_and!.
  - exact Hagain.
  - apply (Hfull "0xB2"). reflexivity.
  - reflexivity.
Defined.

Lemma syncIdentities_idempotent_witness :
  syncIdentities upperHex (syncIdentities upperHex twoIdentities ["0xb2"; "0xc3"]).1
    ["0xb2"; "0xc3"]
  = syncIdentities upperHex twoIdentities ["0xb2"; "0xc3"].
Proof.
  exact (proj2 (syncIdentities_idempotent upperHex upperHex_idempotent
                  twoIdentities ["0xb2"; "0xc3"] twoIdentities_wf)).
Defined.

Lemma reachable_addresses_checksummed_witness :
  upperHex "0xB2" = "0xB2"
  ∧ JsObject.get (identities labelled) "0xB2"
    = Some {| address := None; name := Some "savings" |}
  ∧ upperHex "0xA1" = "0xA1".
Proof.
  pose proof (reachable_addresses_checksummed upperHex upperHex_idempotent
                labelled labelled_reachable)
    as (Hkeys & _ & _ & Hadr & _).
  split_and!.
  - apply Hkeys. evaluate.
  - reflexivity.
  - apply (Hadr "0xA1" {| address := Some "0xA1"; name := Some "Account 1" |});
      reflexivity.
Defined.

Lemma updateIdentities_restores_key_invariant_witness :
  ¬ keyedByChecksum upperHex (identities labelled)
  ∧ keyedByChecksum upperHex
      (identities (updateIdentities upperHex labelled ["0xa1"; "0xb2"])).
Proof.
  split.
  - intros Hinv. apply Forall_cons in Hinv as [_ Hinv].
    apply Forall_cons in Hinv as [Hbad _]. discriminate Hbad.
  - exact (updateIdentities_restores_key_invariant upperHex upperHex_idempotent
             labelled ["0xa1"; "0xb2"] labelled_reachable).
Defined.

Local Abbreviation baseId := "0x80ac58cd".
Local Abbreviation metaId := "0x5b5e139f".
Local Abbreviation supports i := (Remote.mkCall "0xabc" (Remote.SupportsInterface i)).

Lemma tokenURI_settles_as_remote_call_witness :
  let node := Sample.node baseId true true (inr "SYM") in
  ERC721Standard.getTokenURI id node metaId "0xabc" "7" []
  = (Remote.Resolved "tokenURI",
     [supports metaId; Remote.mkCall "0xabc" (Remote.TokenURI "7")])
  ∧ ERC721StandardMethods.getCollectibleTokenURI node "0xabc" "7" []
    = (Remote.Resolved "tokenURI",
       [supports metaId; Remote.mkCall "0xabc" (Remote.TokenURI "7")]).
Proof.
  intros node.
  destruct (tokenURI_settles_as_remote_call id node metaId "0xabc" "7" "0xabc" [])
    as (HbyAddress & _ & HbyMethods & _).
  split; [by apply HbyAddress | by apply HbyMethods].
Defined.

Lemma getDetails_call_discipline_witness :
  ∃ rest,
    (ERC721Standard.getDetails id (Sample.node baseId true true (inr "SYM"))
       baseId metaId "ERC721" "0xabc" None []).2
    = supports baseId :: supports metaId :: rest
    ∧ (rest = []
       ∨ rest = [Remote.mkCall "0xabc" Remote.Symbol;
                 Remote.mkCall "0xabc" Remote.Name]).
Proof.
  destruct (getDetails_call_discipline id
              (Sample.node baseId true true (inr "SYM"))
              baseId metaId "ERC721" "0xabc" None [])
    as (rest & Hlog & _ & _ & Hnone).
  exists rest. split; [exact Hlog | by apply Hnone].
Defined.

Lemma getDetails_settles_from_replies_witness :
  let node := Sample.node baseId true true (inr "SYM") in
  (ERC721Standard.getDetails id node baseId metaId "ERC721" "0xabc" None []).1
  = Remote.Resolved
      (ERC721Standard.mkDetails "ERC721" None (Some "SYM") (Some "name"))
  ∧ Remote.replyBool node [] (supports baseId) = inr true.
Proof.
  intros node. split; [reflexivity|].
  destruct (getDetails_settles_from_replies id node baseId metaId "ERC721"
              "0xabc" None []) as (Hresolved & _).
  by destruct (Hresolved
                 (ERC721Standard.mkDetails "ERC721" None (Some "SYM") (Some "name"))
                 eq_refl) as (Hbase & _).
Defined.

Lemma syncIdentities_returns_listed_address_witness :
  (syncIdentities upperHex twoIdentities ["0xc3"; "0xb2"]).2 = Some "0xC3"
  ∧ "0xC3" ∈ upperHex <$> ["0xc3"; "0xb2"].
Proof.
  split; [reflexivity|].
  exact (syncIdentities_returns_listed_address upperHex twoIdentities
           ["0xc3"; "0xb2"] twoIdentities_wf).
Defined.

End MoreRuns.
